(** * A shallow embedding of [text_adventure_engine.py]

    (The payoff analysis of [prisoners_dilemma.py] is embedded after the
    engine.)

    The engine is a room graph ([Room], [AdventureGame._create_world]), a
    command interpreter ([AdventureGame.parse_command]) and a read loop
    ([AdventureGame.play]).

    Modelling choices.
    - A Python [str] is a [string] whose characters are code points below
      256.  On such strings [str.lower], [str.strip] and [str.split] act as
      [lower], [strip] and [split] below.
    - A Python [dict] with string keys is an association list kept in
      insertion order (the order matters to [Room.get_description], which
      joins the keys); assignment to a key that is present overwrites the
      value in place, as Python does.
    - A [Room] is never mutated once [_create_world] has returned
      ([add_connection] is called nowhere else), so a reference to a [Room]
      object is modelled by the value of that object.
    - A method that mutates [self] and prints is a function from the object
      to an [outcome]: either the object after the call with the text
      written to standard output, or the exception that escaped with the
      text written before it.
    - Standard input is a list of events; reading past its end is an
      end-of-file. *)

From Stdlib Require Import List String Ascii Bool Arith NArith ZArith Lia.
Import ListNotations.
Local Open Scope string_scope.

(** ** Python strings *)

Module PyStr.

Definition nl : string := String (ascii_of_nat 10) EmptyString.

(** [str.isspace] on one character: the code points below 256 that Python
    treats as whitespace. *)
Definition is_space (c : ascii) : bool :=
  match N_of_ascii c with
  | 9%N | 10%N | 11%N | 12%N | 13%N
  | 28%N | 29%N | 30%N | 31%N | 32%N
  | 133%N | 160%N => true
  | _ => false
  end.

(** [str.lower] on one character: A-Z and the upper-case letters of the
    upper half (all of 192..222 but the multiplication sign 215) move up by
    32. *)
Definition lower_char (c : ascii) : ascii :=
  let n := N_of_ascii c in
  if ((65 <=? n) && (n <=? 90) || (192 <=? n) && (n <=? 214)
      || (216 <=? n) && (n <=? 222))%N
  then ascii_of_N (n + 32) else c.

Fixpoint lower (s : string) : string :=
  match s with
  | EmptyString => EmptyString
  | String c s' => String (lower_char c) (lower s')
  end.

Definition is_empty (s : string) : bool :=
  match s with EmptyString => true | _ => false end.

Fixpoint lstrip (s : string) : string :=
  match s with
  | EmptyString => EmptyString
  | String c s' => if is_space c then lstrip s' else s
  end.

Fixpoint rstrip (s : string) : string :=
  match s with
  | EmptyString => EmptyString
  | String c s' =>
      let r := rstrip s' in
      if is_space c && is_empty r then EmptyString else String c r
  end.

(** [str.strip()] *)
Definition strip (s : string) : string := rstrip (lstrip s).

(** [str.split()] with no argument: the maximal runs of non-whitespace
    characters.  [cur] is the run being read. *)
Fixpoint split_from (cur : string) (s : string) : list string :=
  match s with
  | EmptyString => if is_empty cur then [] else [cur]
  | String c s' =>
      if is_space c
      then (if is_empty cur then split_from EmptyString s'
            else cur :: split_from EmptyString s')
      else split_from (cur ++ String c EmptyString) s'
  end.

Definition split (s : string) : list string := split_from EmptyString s.

(** [sep.join(xs)] *)
Fixpoint join (sep : string) (xs : list string) : string :=
  match xs with
  | [] => EmptyString
  | [x] => x
  | x :: rest => x ++ sep ++ join sep rest
  end.

(** [needle in hay] for strings *)
Fixpoint contains (hay needle : string) : bool :=
  if String.prefix needle hay then true
  else match hay with
       | EmptyString => false
       | String _ hay' => contains hay' needle
       end.

End PyStr.

Import PyStr.

(** ** Python dictionaries with string keys *)

Module Dict.

Definition dict (V : Type) : Type := list (string * V).

(** [d[k]]: [None] stands for [KeyError]. *)
Fixpoint get {V} (d : dict V) (k : string) : option V :=
  match d with
  | [] => None
  | (k', v) :: d' => if String.eqb k k' then Some v else get d' k
  end.

(** [k in d] *)
Fixpoint mem {V} (d : dict V) (k : string) : bool :=
  match d with
  | [] => false
  | (k', _) :: d' => String.eqb k k' || mem d' k
  end.

(** [d[k] = v]: overwrite where [k] is, or append. *)
Fixpoint set {V} (d : dict V) (k : string) (v : V) : dict V :=
  match d with
  | [] => [(k, v)]
  | (k', v') :: d' =>
      if String.eqb k k' then (k', v) :: d' else (k', v') :: set d' k v
  end.

(** [{k1: v1, ..., kn: vn}]: the entries are stored from left to right. *)
Definition literal {V} (kvs : list (string * V)) : dict V :=
  fold_left (fun d kv => set d (fst kv) (snd kv)) kvs [].

Definition keys {V} (d : dict V) : list string := map fst d.
Definition values {V} (d : dict V) : list V := map snd d.

End Dict.

Import Dict.

(** ** class Room *)

Record Room : Type := mkRoom {
  name : string;
  description : string;
  connections : dict string;
  is_end : bool
}.

(** [Room.__init__(name, description, connections=None, is_end=False)] *)
Definition Room_init (name description : string)
    (connections : option (dict string)) (is_end : bool) : Room :=
  {| name := name;
     description := description;
     connections := match connections with Some c => c | None => [] end;
     is_end := is_end |}.

(** [Room.add_connection]: the room after the assignment. *)
Definition add_connection (self : Room) (direction target_room : string) : Room :=
  {| name := name self;
     description := description self;
     connections := set (connections self) direction target_room;
     is_end := is_end self |}.

Definition get_description (self : Room) : string :=
  let desc := "--- " ++ name self ++ " ---" ++ nl ++ description self ++ nl in
  let exits := join ", " (keys (connections self)) in
  desc ++ "Available exits: " ++ exits.

(** ** Outcomes of a call *)

Inductive exn : Type :=
| KeyError (key : string).

(** Standard output is the list of pieces of text written, oldest first. *)
Definition stdout : Type := list string.

(** [print(s)] writes [s] and a newline. *)
Definition print (s : string) : stdout := [s ++ nl].

Inductive outcome (A : Type) : Type :=
| Returns (a : A) (out : stdout)
| Raises (e : exn) (out : stdout).
Arguments Returns {A} a out.
Arguments Raises {A} e out.

(** [prepend o m]: the call [m] happened after [o] had been written. *)
Definition prepend {A} (o : stdout) (m : outcome A) : outcome A :=
  match m with
  | Returns a o' => Returns a (o ++ o')%list
  | Raises e o' => Raises e (o ++ o')%list
  end.

(** ** class AdventureGame *)

Record AdventureGame : Type := mkGame {
  rooms : dict Room;
  current_room : Room;
  is_running : bool
}.

Definition set_current_room (self : AdventureGame) (r : Room) : AdventureGame :=
  {| rooms := rooms self; current_room := r; is_running := is_running self |}.

Definition set_is_running (self : AdventureGame) (b : bool) : AdventureGame :=
  {| rooms := rooms self; current_room := current_room self; is_running := b |}.

Definition _create_world : dict Room :=
  let r1 := Room_init "Entrance Hall" "You are in a dusty, dimly lit hall. There is a suit of armor by the north wall." None false in
  let r2 := Room_init "Treasure Chamber" "A small chamber filled with glittering gold and ancient artifacts! You win!" None true in
  let r3 := Room_init "Dark Corridor" "A narrow, dark corridor. It smells faintly of mildew." None false in
  let r4 := Room_init "Storage Room" "Boxes and old crates are stacked high. A small key is visible beneath a loose floorboard." None false in
  let r1 := add_connection r1 "north" "dark_corridor" in
  let r1 := add_connection r1 "east" "treasure_chamber" in
  let r3 := add_connection r3 "south" "start_hall" in
  let r3 := add_connection r3 "west" "storage_room" in
  let r4 := add_connection r4 "east" "dark_corridor" in
  literal [ ("start_hall", r1);
            ("treasure_chamber", r2);
            ("dark_corridor", r3);
            ("storage_room", r4) ].

(** [AdventureGame.__init__], with the mapping that [self._create_world()]
    returned as an argument: the call is dispatched on [self], so the
    constructor runs on whatever world a subclass builds. *)
Definition init_with (world : dict Room) : outcome AdventureGame :=
  match get world "start_hall" with
  | Some r => Returns {| rooms := world; current_room := r; is_running := true |} []
  | None => Raises (KeyError "start_hall") []
  end.

(** [AdventureGame()] *)
Definition AdventureGame_init : outcome AdventureGame := init_with _create_world.

Definition look (self : AdventureGame) : outcome AdventureGame :=
  Returns self (print (nl ++ get_description (current_room self))).

(** [hasattr(self.current_room, 'is_end')] holds of every [Room]:
    [Room.__init__] always sets the attribute. *)
Definition _handle_move (self : AdventureGame) (direction : string)
  : outcome AdventureGame :=
  if mem (connections (current_room self)) direction then
    match get (connections (current_room self)) direction with
    | None => Raises (KeyError direction) []
    | Some next_room_key =>
        match get (rooms self) next_room_key with
        | None => Raises (KeyError next_room_key) []
        | Some r =>
            let self := set_current_room self r in
            if is_end (current_room self) then
              Returns (set_is_running self false)
                      (print (nl ++ get_description (current_room self)))
            else look self
        end
    end
  else Returns self (print "You cannot go that way.").

Definition quit_game (self : AdventureGame) : outcome AdventureGame :=
  Returns (set_is_running self false)
          (print (nl ++ "Thank you for playing. Goodbye!")).

Definition in_list (x : string) (xs : list string) : bool :=
  existsb (String.eqb x) xs.

Definition parse_command (self : AdventureGame) (command : string)
  : outcome AdventureGame :=
  let command := strip (lower command) in
  let parts := split command in
  match parts with
  | [] => Returns self []
  | verb :: _ =>
      if in_list verb ["north"; "south"; "east"; "west"; "go"] then
        let direction := if String.eqb verb "go" then last parts verb else verb in
        _handle_move self direction
      else if in_list verb ["quit"; "exit"] then quit_game self
      else if in_list verb ["look"; "l"] then look self
      else Returns self
             (print ("Unknown command: '" ++ command ++ "'. Try 'go north' or 'quit'."))
  end.

(** ** The read loop *)

(** What one call of [input] meets: a line, or an interrupt from the
    keyboard.  Past the end of the list every read is an end-of-file. *)
Inductive stdin_event : Type :=
| Line (text : string)
| Interrupt.

(** The rest of a turn: when the call [m] of this turn returned, the loop
    goes on with the session it left; an exception that the loop does not
    catch leaves the loop. *)
Definition next_turn (loop : AdventureGame -> list stdin_event -> option (outcome AdventureGame))
    (m : outcome AdventureGame) (rest : list stdin_event)
  : option (outcome AdventureGame) :=
  match m with
  | Raises e o => Some (Raises e o)
  | Returns self o => option_map (prepend o) (loop self rest)
  end.

(** The [while self.is_running] loop.  [fuel] bounds the number of times the
    loop condition is tested; [None] means the bound was reached.  Each turn
    writes the prompt of [input(">> ")] and reads one event; end-of-file and
    the interrupt are caught and call [quit_game]. *)
Fixpoint play_loop (fuel : nat) (self : AdventureGame) (input : list stdin_event)
  : option (outcome AdventureGame) :=
  match fuel with
  | O => None
  | S fuel =>
      if is_running self then
        option_map (prepend [">> "])
          match input with
          | [] => next_turn (play_loop fuel) (quit_game self) []
          | Interrupt :: rest => next_turn (play_loop fuel) (quit_game self) rest
          | Line text :: rest =>
              let user_input := strip text in
              if negb (is_empty user_input)
              then next_turn (play_loop fuel) (parse_command self user_input) rest
              else play_loop fuel self rest
          end
      else Some (Returns self [])
  end.

Definition play (fuel : nat) (self : AdventureGame) (input : list stdin_event)
  : option (outcome AdventureGame) :=
  option_map (prepend (print "Welcome to the Minimal Text Adventure!"))
    match look self with
    | Raises e o => Some (Raises e o)
    | Returns self o => option_map (prepend o) (play_loop fuel self input)
    end.

(** The program: [game = AdventureGame(); game.play()]. *)
Definition main (fuel : nat) (input : list stdin_event)
  : option (outcome AdventureGame) :=
  match AdventureGame_init with
  | Raises e o => Some (Raises e o)
  | Returns game o => option_map (prepend o) (play fuel game input)
  end.

(** ** Vocabulary of the properties *)

(** A string that is empty or starts with a character that is not
    whitespace. *)
Definition starts_clean (s : string) : bool :=
  match s with
  | EmptyString => true
  | String c _ => negb (is_space c)
  end.

(** Every exit of [r] leads to a key of [w]. *)
Definition resolves (w : dict Room) (r : Room) : Prop :=
  forall target, In target (values (connections r)) -> mem w target = true.

(** Graph closure: every exit of every room of [w] leads to a key of [w]. *)
Definition graph_closed (w : dict Room) : Prop :=
  forall r, In r (values w) -> resolves w r.

Definition graph_closedb (w : dict Room) : bool :=
  forallb (fun r => forallb (mem w) (values (connections r))) (values w).

(** The invariant of a session: the world is closed and the current room is
    one of its rooms. *)
Definition session_ok (g : AdventureGame) : Prop :=
  graph_closed (rooms g) /\ In (current_room g) (values (rooms g)).

(** Names for the four rooms that [_create_world] builds and for the session
    that [AdventureGame()] returns; [create_world_rooms] and
    [AdventureGame_init_new_game] below show that the code computes them. *)
Definition start_hall : Room :=
  mkRoom "Entrance Hall"
    "You are in a dusty, dimly lit hall. There is a suit of armor by the north wall."
    [("north", "dark_corridor"); ("east", "treasure_chamber")] false.
Definition treasure_chamber : Room :=
  mkRoom "Treasure Chamber"
    "A small chamber filled with glittering gold and ancient artifacts! You win!"
    [] true.
Definition dark_corridor : Room :=
  mkRoom "Dark Corridor" "A narrow, dark corridor. It smells faintly of mildew."
    [("south", "start_hall"); ("west", "storage_room")] false.
Definition storage_room : Room :=
  mkRoom "Storage Room"
    "Boxes and old crates are stacked high. A small key is visible beneath a loose floorboard."
    [("east", "dark_corridor")] false.

Definition new_game : AdventureGame :=
  {| rooms := _create_world; current_room := start_hall; is_running := true |}.

(** A world with a dangling exit: the hall's exit "north" names a key that
    the mapping lacks. *)
Definition dangling_world : dict Room :=
  literal [ ("start_hall",
             add_connection (Room_init "Hall" "A hall." None false)
                            "north" "nowhere") ].

Definition farewell : stdout := print (nl ++ "Thank you for playing. Goodbye!").

(** The session that [quit] leaves in the Entrance Hall. *)
Definition ended_game : AdventureGame := set_is_running new_game false.

(** The commands of [cmds] handed to [parse_command] one after the other. *)
Fixpoint run_commands (g : AdventureGame) (cmds : list string)
  : outcome AdventureGame :=
  match cmds with
  | [] => Returns g []
  | cmd :: rest =>
      match parse_command g cmd with
      | Raises e o => Raises e o
      | Returns g' o => prepend o (run_commands g' rest)
      end
  end.

(** The first token is none of the words that [parse_command] knows. *)
Definition unrecognized (verb : string) : bool :=
  negb (in_list verb ["north"; "south"; "east"; "west"; "go"])
  && negb (in_list verb ["quit"; "exit"])
  && negb (in_list verb ["look"; "l"]).

(** A run of the loop from [g] that did not raise, and left the world and the
    invariant as they were. *)
Definition kept_ok (g : AdventureGame) (r : option (outcome AdventureGame)) : Prop :=
  match r with
  | Some (Returns g' _) => rooms g' = rooms g /\ session_ok g'
  | Some (Raises _ _) => False
  | None => True
  end.

(** The session that [AdventureGame.__init__] returns on [dangling_world]. *)
Definition dangling_game : AdventureGame :=
  {| rooms := dangling_world;
     current_room := add_connection (Room_init "Hall" "A hall." None false)
                                    "north" "nowhere";
     is_running := true |}.

(** The text [x] is the last piece written in [out]. *)
Definition ends_with (x : string) (out : stdout) : Prop :=
  exists before, out = (before ++ [x])%list.

(** The last piece that a run of the loop writes, when it starts in a
    running session: the farewell, or the description of the room with
    [is_end] set in which the run ended. *)
Definition closing_piece (g' : AdventureGame) (out : stdout) : Prop :=
  ends_with (nl ++ "Thank you for playing. Goodbye!" ++ nl) out
  \/ (is_end (current_room g') = true
      /\ ends_with (nl ++ get_description (current_room g') ++ nl) out).

(** * [prisoners_dilemma.py]

    A payoff table is a Python [dict] from pairs of strategies to pairs of
    payoffs (years in prison, the fewer the better), kept in insertion order
    as [payoffs.items()] walks it.  Strategies are strings, payoffs are
    Python integers. *)

Module Dilemma.

Definition key : Type := string * string.
Definition payoff : Type := Z * Z.
Definition table : Type := list (key * payoff).

Definition key_eqb (a b : key) : bool :=
  String.eqb (fst a) (fst b) && String.eqb (snd a) (snd b).

(** [payoffs[k]]: [None] stands for [KeyError]. *)
Fixpoint lookup (payoffs : table) (k : key) : option payoff :=
  match payoffs with
  | [] => None
  | (k', v) :: rest => if key_eqb k k' then Some v else lookup rest k
  end.

Definition PAYOFF_MATRIX : table :=
  [ (("C", "C"), (2, 2));
    (("C", "D"), (10, 0));
    (("D", "C"), (0, 10));
    (("D", "D"), (5, 5)) ]%Z.

Definition STRATEGIES : list string := ["C"; "D"].

(** The result of a call that may raise [KeyError] on a pair. *)
Inductive result (A : Type) : Type :=
| Ok (a : A)
| KeyErr (k : key).
Arguments Ok {A} a.
Arguments KeyErr {A} k.

(** [for x in xs: acc = body(x, acc)], left when the body raises. *)
Fixpoint for_each {A} (xs : list string) (body : string -> A -> result A)
    (acc : A) : result A :=
  match xs with
  | [] => Ok acc
  | x :: rest =>
      match body x acc with
      | Ok acc' => for_each rest body acc'
      | KeyErr k => KeyErr k
      end
  end.

(** The body of the inner loop of [find_nash_equilibrium]. *)
Definition nash_step (payoffs : table) (s1 s2 : string)
    (nash_equilibria : list (key * payoff)) : result (list (key * payoff)) :=
  match lookup payoffs (s1, s2) with
  | None => KeyErr (s1, s2)
  | Some (p1_payoff, p2_payoff) =>
      let is_nash := true in
      let p1_alternative_strategy := if String.eqb s1 "C" then "D" else "C" in
      match lookup payoffs (p1_alternative_strategy, s2) with
      | None => KeyErr (p1_alternative_strategy, s2)
      | Some (p1_alt_payoff, _) =>
          let is_nash := if (p1_alt_payoff <? p1_payoff)%Z then false else is_nash in
          let p2_alternative_strategy := if String.eqb s2 "C" then "D" else "C" in
          match lookup payoffs (s1, p2_alternative_strategy) with
          | None => KeyErr (s1, p2_alternative_strategy)
          | Some (_, p2_alt_payoff) =>
              let is_nash := if (p2_alt_payoff <? p2_payoff)%Z then false else is_nash in
              Ok (if is_nash
                  then (nash_equilibria ++ [((s1, s2), (p1_payoff, p2_payoff))])%list
                  else nash_equilibria)
          end
      end
  end.

Definition find_nash_equilibrium (payoffs : table) : result (list (key * payoff)) :=
  for_each STRATEGIES
    (fun s1 acc => for_each STRATEGIES (fun s2 acc => nash_step payoffs s1 s2 acc) acc)
    [].

(** [min_total_years]: [float('inf')] until a total has been stored. *)
Inductive years : Type :=
| Inf
| Years (n : Z).

(** [total_years < min_total_years] *)
Definition below (total_years : Z) (min_total_years : years) : bool :=
  match min_total_years with
  | Inf => true
  | Years m => (total_years <? m)%Z
  end.

(** The body of the loop of [find_socially_optimal] on the pair
    ([best_outcome], [min_total_years]). *)
Definition optimal_step (state : option (key * payoff) * years)
    (item : key * payoff) : option (key * payoff) * years :=
  let '(strategies, (p1_payoff, p2_payoff)) := item in
  let total_years := (p1_payoff + p2_payoff)%Z in
  if below total_years (snd state)
  then (Some (strategies, (p1_payoff, p2_payoff)), Years total_years)
  else state.

Definition find_socially_optimal (payoffs : table) : option (key * payoff) :=
  fst (fold_left optimal_step payoffs (None, Inf)).

End Dilemma.

(** ** Vocabulary of the properties of the payoff tables *)

(** The years of a table entry added up. *)
Definition total (item : Dilemma.key * Dilemma.payoff) : Z :=
  (fst (snd item) + snd (snd item))%Z.

(** [(s1, s2)] with payoffs [(p1, p2)] is an equilibrium of [payoffs]: the
    pair is in the table, and no player gets fewer years by changing to
    another strategy of [STRATEGIES] alone. *)
Definition equilibrium (payoffs : Dilemma.table) (s1 s2 : string) (p1 p2 : Z) : Prop :=
  In s1 Dilemma.STRATEGIES /\ In s2 Dilemma.STRATEGIES
  /\ Dilemma.lookup payoffs (s1, s2) = Some (p1, p2)
  /\ (forall s1' q, In s1' Dilemma.STRATEGIES ->
        Dilemma.lookup payoffs (s1', s2) = Some q -> (p1 <= fst q)%Z)
  /\ (forall s2' q, In s2' Dilemma.STRATEGIES ->
        Dilemma.lookup payoffs (s1, s2') = Some q -> (p2 <= snd q)%Z).

(** The table has an entry for every pair of strategies. *)
Definition complete (payoffs : Dilemma.table) : Prop :=
  forall s1 s2, In s1 Dilemma.STRATEGIES -> In s2 Dilemma.STRATEGIES ->
    exists q, Dilemma.lookup payoffs (s1, s2) = Some q.

(** The first pair without an entry, in the order in which
    [find_nash_equilibrium] looks the pairs up. *)
Definition first_missing (payoffs : Dilemma.table) : option Dilemma.key :=
  find (fun k => match Dilemma.lookup payoffs k with None => true | Some _ => false end)
       [("C", "C"); ("D", "C"); ("C", "D"); ("D", "D")].

(** [best] is the first entry of [seen] with the least total. *)
Definition first_least (seen : Dilemma.table) (best : Dilemma.key * Dilemma.payoff)
  : Prop :=
  exists before after,
    seen = (before ++ best :: after)%list
    /\ Forall (fun e => (total best < total e)%Z) before
    /\ Forall (fun e => (total best <= total e)%Z) after.

(** The state of the loop of [find_socially_optimal] once the entries
    [seen] have been walked. *)
Definition optimal_state (seen : Dilemma.table)
    (state : option (Dilemma.key * Dilemma.payoff) * Dilemma.years) : Prop :=
  match state with
  | (None, Dilemma.Inf) => seen = []
  | (Some best, Dilemma.Years m) => m = total best /\ first_least seen best
  | _ => False
  end.

(** * Properties *)

(** ** The string operations on examples *)

Example split_ex : split "  go   quickly north " = ["go"; "quickly"; "north"].
Proof. reflexivity. Qed.
Example strip_ex : strip "  Go  North  " = "Go  North".
Proof. reflexivity. Qed.
Example lower_ex : lower "Go NORTH" = "go north".
Proof. reflexivity. Qed.
Example join_ex : join ", " ["north"; "east"] = "north, east".
Proof. reflexivity. Qed.

(** ** Normalisation of a command line *)

Section Normalisation.

Lemma is_space_lower_char (c : ascii) : is_space (lower_char c) = is_space c.
Proof. destruct c as [[] [] [] [] [] [] [] []]; reflexivity. Qed.

Lemma is_empty_lower (s : string) : is_empty (lower s) = is_empty s.
Proof. destruct s; reflexivity. Qed.

Lemma lower_lstrip (s : string) : lstrip (lower s) = lower (lstrip s).
Proof.
  induction s as [|c s IH]; simpl; [reflexivity|].
  rewrite is_space_lower_char.
  destruct (is_space c); [exact IH | reflexivity].
Qed.

Lemma lower_rstrip (s : string) : rstrip (lower s) = lower (rstrip s).
Proof.
  induction s as [|c s IH]; simpl; [reflexivity|].
  rewrite is_space_lower_char, IH, is_empty_lower.
  destruct (is_space c && is_empty (rstrip s)); reflexivity.
Qed.

(** Lower-casing and trimming commute. *)
Lemma lower_strip (s : string) : strip (lower s) = lower (strip s).
Proof. unfold strip. now rewrite lower_lstrip, lower_rstrip. Qed.

Lemma rstrip_idem (s : string) : rstrip (rstrip s) = rstrip s.
Proof.
  induction s as [|c s IH]; simpl; [reflexivity|].
  destruct (is_space c && is_empty (rstrip s)) eqn:E; simpl; [reflexivity|].
  now rewrite IH, E.
Qed.

Lemma starts_clean_lstrip (s : string) : starts_clean (lstrip s) = true.
Proof.
  induction s as [|c s IH]; simpl; [reflexivity|].
  destruct (is_space c) eqn:E; [exact IH | simpl; now rewrite E].
Qed.

Lemma lstrip_clean (s : string) : starts_clean s = true -> lstrip s = s.
Proof.
  destruct s as [|c s]; simpl; [reflexivity|].
  now destruct (is_space c).
Qed.

Lemma starts_clean_rstrip (s : string) :
  starts_clean s = true -> starts_clean (rstrip s) = true.
Proof.
  destruct s as [|c s]; simpl; [reflexivity|].
  destruct (is_space c) eqn:E; [discriminate|]; simpl.
  now rewrite E.
Qed.

Lemma strip_idem (s : string) : strip (strip s) = strip s.
Proof.
  unfold strip.
  rewrite (lstrip_clean (rstrip (lstrip s))).
  - apply rstrip_idem.
  - apply starts_clean_rstrip, starts_clean_lstrip.
Qed.

End Normalisation.

(** ** Dictionary lookups *)

Section DictFacts.
Context {V : Type}.

Lemma mem_get (d : dict V) (k : string) :
  mem d k = true <-> exists v, get d k = Some v.
Proof.
  induction d as [|[k' v'] d IH]; simpl.
  - split; [discriminate | intros [v H]; discriminate].
  - destruct (String.eqb k k'); simpl; [|exact IH].
    split; [eauto | reflexivity].
Qed.

Lemma get_in_values (d : dict V) (k : string) (v : V) :
  get d k = Some v -> In v (values d).
Proof.
  induction d as [|[k' v'] d IH]; simpl; [discriminate|].
  destruct (String.eqb k k'); [intros [= ->]; now left | auto].
Qed.

End DictFacts.

(** ** The world graph *)

Lemma graph_closedb_spec (w : dict Room) :
  graph_closedb w = true <-> graph_closed w.
Proof.
  unfold graph_closedb, graph_closed, resolves.
  rewrite forallb_forall.
  split; intros H r Hr.
  - apply forallb_forall. now apply H.
  - apply forallb_forall. now apply H.
Qed.

Lemma create_world_rooms :
  _create_world = [ ("start_hall", start_hall);
                    ("treasure_chamber", treasure_chamber);
                    ("dark_corridor", dark_corridor);
                    ("storage_room", storage_room) ].
Proof. reflexivity. Qed.

Lemma AdventureGame_init_new_game : AdventureGame_init = Returns new_game [].
Proof. reflexivity. Qed.

Lemma create_world_closed : graph_closed _create_world.
Proof. apply graph_closedb_spec. reflexivity. Qed.

Lemma new_game_ok : session_ok new_game.
Proof. split; [exact create_world_closed | simpl; auto]. Qed.

(** ** Moves *)

Section Moves.
Variable g : AdventureGame.

(** A move along an exit that is absent. *)
Lemma handle_move_absent (d : string) :
  mem (connections (current_room g)) d = false ->
  _handle_move g d = Returns g (print "You cannot go that way.").
Proof. intros H. unfold _handle_move. now rewrite H. Qed.

(** A move along an exit whose target is a room of the world. *)
Lemma handle_move_present (d k : string) (r : Room) :
  get (connections (current_room g)) d = Some k ->
  get (rooms g) k = Some r ->
  _handle_move g d =
    Returns {| rooms := rooms g; current_room := r;
               is_running := if is_end r then false else is_running g |}
            (print (nl ++ get_description r)).
Proof.
  intros Hd Hk. unfold _handle_move.
  assert (Hm : mem (connections (current_room g)) d = true)
    by (apply mem_get; eauto).
  rewrite Hm, Hd, Hk. simpl.
  destruct (is_end r); reflexivity.
Qed.

(** A move along an exit whose target is no room of the world. *)
Lemma handle_move_dangling (d k : string) :
  get (connections (current_room g)) d = Some k ->
  get (rooms g) k = None ->
  _handle_move g d = Raises (KeyError k) [].
Proof.
  intros Hd Hk. unfold _handle_move.
  assert (Hm : mem (connections (current_room g)) d = true)
    by (apply mem_get; eauto).
  now rewrite Hm, Hd, Hk.
Qed.

End Moves.

(** In a closed world a move never raises and keeps the invariant. *)
Lemma handle_move_ok (g : AdventureGame) (d : string) :
  session_ok g ->
  exists g' out, _handle_move g d = Returns g' out
                 /\ rooms g' = rooms g /\ session_ok g'.
Proof.
  intros [Hc Hin].
  destruct (mem (connections (current_room g)) d) eqn:Hm.
  - apply mem_get in Hm. destruct Hm as [k Hk].
    assert (Hr : mem (rooms g) k = true)
      by (apply (Hc _ Hin), (get_in_values _ _ _ Hk)).
    apply mem_get in Hr. destruct Hr as [r Hr].
    rewrite (handle_move_present g d k r Hk Hr).
    do 2 eexists. split; [reflexivity|]. split; [reflexivity|].
    split; simpl; [exact Hc | exact (get_in_values _ _ _ Hr)].
  - rewrite (handle_move_absent g d Hm).
    do 2 eexists. split; [reflexivity|]. split; [reflexivity|]. now split.
Qed.

(** ** The world graph and its construction (C1) *)

(** C1, as stated, fails: the claim asks that a world with a dangling exit
    makes the constructor fail.  [dangling_world] is not closed, yet the
    constructor returns a running session on it, and the dangling exit raises
    [KeyError] only when the player takes it during play. *)
Lemma dangling_exit_not_detected_at_construction :
  ~ (forall w : dict Room,
        graph_closedb w = false -> exists e out, init_with w = Raises e out).
Proof.
  intros H.
  destruct (H dangling_world eq_refl) as (e & out & He).
  discriminate He.
Qed.

(** The same world at run time: construction succeeds, and the first
    "north" leaves the loop with a [KeyError]. *)
Example dangling_exit_surfaces_in_play :
  exists g, init_with dangling_world = Returns g []
            /\ is_running g = true
            /\ play_loop 3 g [Line "north"] = Some (Raises (KeyError "nowhere") [">> "]).
Proof. eexists. repeat split. Qed.

(** C1, amended: every exit target key of every room of the world that
    [_create_world] returns resolves to a room of that mapping, and
    [AdventureGame()] succeeds on it, starting in the Entrance Hall.  The
    constructor makes no closure check: on any mapping it succeeds exactly
    when 'start_hall' is a key; an exit whose target is missing raises
    [KeyError] in [_handle_move], when it is taken. *)
Theorem create_world_closed_no_construction_check :
  (forall key r d target,
      get _create_world key = Some r ->
      get (connections r) d = Some target ->
      exists r', get _create_world target = Some r')
  /\ AdventureGame_init = Returns new_game []
  /\ (forall w, (exists g, init_with w = Returns g []) <-> mem w "start_hall" = true)
  /\ (forall g d k,
        get (connections (current_room g)) d = Some k ->
        get (rooms g) k = None ->
        _handle_move g d = Raises (KeyError k) []).
Proof.
  split; [|split; [reflexivity|split]].
  - intros key r d target Hr Ht.
    apply mem_get.
    apply (create_world_closed r (get_in_values _ _ _ Hr)).
    exact (get_in_values _ _ _ Ht).
  - intros w. unfold init_with. rewrite mem_get.
    destruct (get w "start_hall") as [r|].
    + split; eauto.
    + split; [intros [g Hg]; discriminate | intros [v Hv]; discriminate].
  - exact handle_move_dangling.
Qed.

Lemma create_world_closed_no_construction_check_witness :
  (get _create_world "dark_corridor" = Some dark_corridor
   /\ get (connections dark_corridor) "west" = Some "storage_room")
  /\ exists r', get _create_world "storage_room" = Some r'.
Proof.
  split; [split; reflexivity|].
  apply (proj1 create_world_closed_no_construction_check
               "dark_corridor" dark_corridor "west" "storage_room");
    reflexivity.
Defined.

(** ** Moving into a terminal room (C2) *)

(** C2: in a running session, a move along an exit that leads to a room whose
    [is_end] flag is set makes that room current, prints its full description
    and sets [is_running] to [False].  The session that [AdventureGame()]
    returns is running in the room 'start_hall', the Entrance Hall, whose
    exit "east" leads to the terminal Treasure Chamber: on that session
    "east" makes the Treasure Chamber current, prints its description and
    ends the session, and the program run on the input "east" writes the
    welcome, the hall, the prompt and the Treasure Chamber, and stops without
    reading on. *)
Theorem move_into_terminal_room_ends_session :
  (forall g d k r,
      is_running g = true ->
      get (connections (current_room g)) d = Some k ->
      get (rooms g) k = Some r ->
      is_end r = true ->
      _handle_move g d =
        Returns {| rooms := rooms g; current_room := r; is_running := false |}
                (print (nl ++ get_description r)))
  /\ (exists game hall chamber,
        AdventureGame_init = Returns game []
        /\ is_running game = true
        /\ current_room game = hall
        /\ get (rooms game) "start_hall" = Some hall
        /\ name hall = "Entrance Hall"
        /\ get (connections hall) "east" = Some "treasure_chamber"
        /\ get (rooms game) "treasure_chamber" = Some chamber
        /\ name chamber = "Treasure Chamber"
        /\ is_end chamber = true
        /\ parse_command game "east" =
             Returns {| rooms := rooms game; current_room := chamber;
                        is_running := false |}
                     [nl ++ "--- Treasure Chamber ---" ++ nl
                      ++ "A small chamber filled with glittering gold and ancient artifacts! You win!"
                      ++ nl ++ "Available exits: " ++ nl]
        /\ forall fuel rest,
             main (S (S fuel)) (Line "east" :: rest) =
               Some (Returns {| rooms := rooms game; current_room := chamber;
                                is_running := false |}
                             [ "Welcome to the Minimal Text Adventure!" ++ nl;
                               nl ++ "--- Entrance Hall ---" ++ nl
                               ++ "You are in a dusty, dimly lit hall. There is a suit of armor by the north wall."
                               ++ nl ++ "Available exits: north, east" ++ nl;
                               ">> ";
                               nl ++ "--- Treasure Chamber ---" ++ nl
                               ++ "A small chamber filled with glittering gold and ancient artifacts! You win!"
                               ++ nl ++ "Available exits: " ++ nl ])).
Proof.
  split.
  - intros g d k r _ Hd Hk He.
    rewrite (handle_move_present g d k r Hd Hk), He. reflexivity.
  - exists new_game, start_hall, treasure_chamber.
    split; [exact AdventureGame_init_new_game|].
    repeat (split; [reflexivity|]).
    intros fuel rest. reflexivity.
Qed.

Lemma move_into_terminal_room_ends_session_witness :
  exists game chamber,
    AdventureGame_init = Returns game []
    /\ (is_running game = true
        /\ get (connections (current_room game)) "east" = Some "treasure_chamber"
        /\ get (rooms game) "treasure_chamber" = Some chamber
        /\ is_end chamber = true)
    /\ _handle_move game "east" =
         Returns {| rooms := rooms game; current_room := chamber;
                    is_running := false |}
                 (print (nl ++ get_description chamber)).
Proof.
  exists new_game, treasure_chamber.
  split; [reflexivity|]. split; [repeat split|].
  apply (proj1 move_into_terminal_room_ends_session
               new_game "east" "treasure_chamber" treasure_chamber);
    reflexivity.
Defined.

(** ** Moving where there is no exit (C3) *)

(** C3: for every session and every direction that is no key of the current
    room's exits, the move returns the session as it was (same position, same
    running flag, same world) and prints exactly "You cannot go that way.";
    so does every command line that the interpreter reads as that move. *)
Theorem move_without_exit_is_rejected :
  forall g d,
    mem (connections (current_room g)) d = false ->
    _handle_move g d = Returns g (print "You cannot go that way.")
    /\ (forall cmd rest,
          split (strip (lower cmd)) = d :: rest ->
          in_list d ["north"; "south"; "east"; "west"] = true ->
          parse_command g cmd = Returns g (print "You cannot go that way.")).
Proof.
  intros g d Hm. split; [now apply handle_move_absent|].
  intros cmd rest Hs Hd. unfold parse_command. rewrite Hs.
  assert (Hin : in_list d ["north"; "south"; "east"; "west"; "go"] = true).
  { unfold in_list in *. simpl in *.
    repeat (apply orb_true_iff in Hd; destruct Hd as [Hd|Hd]; [rewrite Hd; now rewrite ?orb_true_r|]).
    discriminate. }
  rewrite Hin.
  assert (Hgo : String.eqb d "go" = false).
  { unfold in_list in Hd. simpl in Hd.
    repeat (apply orb_true_iff in Hd; destruct Hd as [Hd|Hd];
            [apply String.eqb_eq in Hd; now subst|]).
    discriminate. }
  rewrite Hgo. now apply handle_move_absent.
Qed.

Lemma move_without_exit_is_rejected_witness :
  mem (connections (current_room new_game)) "west" = false
  /\ _handle_move new_game "west" = Returns new_game (print "You cannot go that way.")
  /\ parse_command new_game "  West " = Returns new_game (print "You cannot go that way.").
Proof.
  split; [reflexivity|].
  destruct (move_without_exit_is_rejected new_game "west" eq_refl) as [H1 H2].
  split; [exact H1|].
  apply (H2 "  West " []); reflexivity.
Defined.

(** ** Commands and the loop *)

Lemma handle_move_stays_ended (g g' : AdventureGame) (d : string) (out : stdout) :
  _handle_move g d = Returns g' out ->
  is_running g = false -> is_running g' = false.
Proof.
  unfold _handle_move, look.
  destruct (mem _ d); [|now intros [= <- _]].
  destruct (get (connections _) d) as [k|]; [|discriminate].
  destruct (get (rooms g) k) as [r|]; [|discriminate]. simpl.
  destruct (is_end r); now intros [= <- _].
Qed.

Lemma parse_command_stays_ended (g g' : AdventureGame) (cmd : string) (out : stdout) :
  parse_command g cmd = Returns g' out ->
  is_running g = false -> is_running g' = false.
Proof.
  unfold parse_command, quit_game, look.
  destruct (split _) as [|verb rest]; [now intros [= <- _]|].
  destruct (in_list verb ["north"; "south"; "east"; "west"; "go"]);
    [apply handle_move_stays_ended|].
  destruct (in_list verb ["quit"; "exit"]); [now intros [= <- _]|].
  destruct (in_list verb ["look"; "l"]); now intros [= <- _].
Qed.

(** In a closed world no command raises, and every command keeps the
    invariant and the world. *)
Lemma parse_command_ok (g : AdventureGame) (cmd : string) :
  session_ok g ->
  exists g' out, parse_command g cmd = Returns g' out
                 /\ rooms g' = rooms g /\ session_ok g'.
Proof.
  intros Hok. unfold parse_command, quit_game, look.
  destruct (split _) as [|verb rest]; [now eauto 6|].
  destruct (in_list verb ["north"; "south"; "east"; "west"; "go"]);
    [now apply handle_move_ok|].
  destruct (in_list verb ["quit"; "exit"]); [now eauto 6|].
  destruct (in_list verb ["look"; "l"]); now eauto 6.
Qed.

(** Once the flag is down the loop is over: nothing is read or written. *)
Lemma play_loop_ended (fuel : nat) (g : AdventureGame) (input : list stdin_event) :
  is_running g = false -> play_loop (S fuel) g input = Some (Returns g []).
Proof. intros H. simpl. now rewrite H. Qed.

(** One test of the loop condition. *)
Lemma play_loop_S (fuel : nat) (g : AdventureGame) (input : list stdin_event) :
  play_loop (S fuel) g input =
    if is_running g then
      option_map (prepend [">> "])
        match input with
        | [] => next_turn (play_loop fuel) (quit_game g) []
        | Interrupt :: rest => next_turn (play_loop fuel) (quit_game g) rest
        | Line text :: rest =>
            if negb (is_empty (strip text))
            then next_turn (play_loop fuel) (parse_command g (strip text)) rest
            else play_loop fuel g rest
        end
    else Some (Returns g []).
Proof. reflexivity. Qed.

(** A turn that quits: the prompt, the farewell, and the loop is over. *)
Lemma play_loop_quit_turn (fuel : nat) (g : AdventureGame) (rest : list stdin_event) :
  option_map (prepend [">> "]) (next_turn (play_loop (S fuel)) (quit_game g) rest)
  = Some (Returns (set_is_running g false) (">> " :: farewell)).
Proof. unfold quit_game, next_turn. rewrite play_loop_ended; reflexivity. Qed.

(** In a closed world the loop ends, with the flag down, within one test of
    the condition per event and two more. *)
Lemma play_loop_ok (input : list stdin_event) :
  forall (g : AdventureGame) (fuel : nat),
    session_ok g ->
    List.length input + 2 <= fuel ->
    exists g' out, play_loop fuel g input = Some (Returns g' out)
                   /\ rooms g' = rooms g /\ session_ok g' /\ is_running g' = false.
Proof.
  induction input as [|ev input IH]; intros g fuel Hok Hfuel.
  - destruct fuel as [|[|fuel]]; [simpl in Hfuel; lia ..|].
    rewrite play_loop_S. destruct (is_running g) eqn:Hrun; [|now eauto 8].
    rewrite play_loop_quit_turn.
    do 2 eexists. split; [reflexivity|]. split; [reflexivity|]. split; [exact Hok | reflexivity].
  - destruct fuel as [|[|fuel]]; [simpl in Hfuel; lia ..|].
    rewrite play_loop_S. destruct (is_running g) eqn:Hrun; [|now eauto 8].
    destruct ev as [text|].
    + destruct (negb (is_empty (strip text))).
      * destruct (parse_command_ok g (strip text) Hok) as (g1 & o1 & -> & Hr1 & Hok1).
        destruct (IH g1 (S fuel) Hok1) as (g2 & o2 & H2 & Hr2 & Hok2 & Hend);
          [simpl in *; lia|].
        unfold next_turn. rewrite H2.
        do 2 eexists. split; [reflexivity|]. split; [congruence|]. split; assumption.
      * destruct (IH g (S fuel) Hok) as (g2 & o2 & -> & Hr2 & Hok2 & Hend);
          [simpl in *; lia|].
        do 2 eexists. split; [reflexivity|]. split; [congruence|]. split; assumption.
    + rewrite play_loop_quit_turn.
      do 2 eexists. split; [reflexivity|]. split; [reflexivity|]. split; [exact Hok | reflexivity].
Qed.

(** The program ends on every input, without an exception. *)
Lemma main_ok (input : list stdin_event) :
  exists g out, main (List.length input + 2) input = Some (Returns g out)
                /\ is_running g = false.
Proof.
  unfold main. rewrite AdventureGame_init_new_game. unfold play, look.
  destruct (play_loop_ok input new_game (List.length input + 2) new_game_ok (le_n _))
    as (g & out & -> & _ & _ & Hend).
  do 2 eexists. split; [reflexivity | exact Hend].
Qed.

(** ** After the session has ended (C4) *)

(** C4, as stated, fails at the level of the state machine: the claim asks
    that an action on an ended session changes no position and prints
    nothing.  [parse_command] does not look at [is_running]: on the ended
    session in the Entrance Hall, "north" moves to the Dark Corridor and
    prints its description. *)
Lemma action_after_ended_is_not_a_noop :
  ~ (forall g cmd g' out,
        is_running g = false ->
        parse_command g cmd = Returns g' out ->
        current_room g' = current_room g /\ out = []).
Proof.
  intros H.
  destruct (H ended_game "north"
              {| rooms := _create_world; current_room := dark_corridor;
                 is_running := false |}
              (print (nl ++ get_description dark_corridor))
              eq_refl eq_refl) as [Hroom _].
  discriminate Hroom.
Qed.

(** C4, amended: once [is_running] is [False] the loop of [play] submits no
    further action: whatever input is left, it returns at once with the
    session unchanged and nothing read or written.  [parse_command] itself is
    not guarded by the flag (a command handed to it still acts), but no
    command sets the flag back to [True]. *)
Theorem ended_session_loop_submits_nothing :
  forall g,
    is_running g = false ->
    (forall fuel input, play_loop (S fuel) g input = Some (Returns g []))
    /\ (forall cmd g' out,
          parse_command g cmd = Returns g' out -> is_running g' = false).
Proof.
  intros g Hend. split.
  - intros fuel input. now apply play_loop_ended.
  - intros cmd g' out Hp. exact (parse_command_stays_ended g g' cmd out Hp Hend).
Qed.

Lemma ended_session_loop_submits_nothing_witness :
  is_running ended_game = false
  /\ play_loop 1 ended_game [Line "north"; Line "look"] = Some (Returns ended_game [])
  /\ is_running {| rooms := _create_world; current_room := dark_corridor;
                   is_running := false |} = false.
Proof.
  split; [reflexivity|].
  destruct (ended_session_loop_submits_nothing ended_game eq_refl) as [H1 H2].
  split; [apply H1|].
  apply (H2 "north" _ (print (nl ++ get_description dark_corridor))).
  reflexivity.
Defined.

(** ** The verb "go" (C5) *)

(** No room of the world has an exit called "go". *)
Lemma no_exit_called_go (r : Room) :
  In r (values _create_world) -> mem (connections r) "go" = false.
Proof.
  simpl. intros [<-|[<-|[<-|[<-|[]]]]]; reflexivity.
Qed.

(** C5: when the first token of the normalised command is "go", the command
    is the move in the direction of its last token.  So "go north" is the
    command "north" in every session, and from the Entrance Hall both lead to
    the Dark Corridor and print its description, with the exits south and
    west; "go quickly north" is the move "north"; "go" alone is the move
    "go", which no room of the world has an exit for, so it is rejected. *)
Theorem go_moves_in_direction_of_last_token :
  (forall g cmd rest,
      split (strip (lower cmd)) = "go" :: rest ->
      parse_command g cmd = _handle_move g (last ("go" :: rest) "go"))
  /\ (forall g, parse_command g "go north" = parse_command g "north")
  /\ parse_command new_game "go north" =
       Returns {| rooms := _create_world; current_room := dark_corridor;
                  is_running := true |}
               (print (nl ++ get_description dark_corridor))
  /\ get_description dark_corridor =
       "--- Dark Corridor ---
A narrow, dark corridor. It smells faintly of mildew.
Available exits: south, west"
  /\ (forall g, parse_command g "go quickly north" = _handle_move g "north")
  /\ (forall g, parse_command g "go" = _handle_move g "go")
  /\ (forall g,
        In (current_room g) (values _create_world) ->
        parse_command g "go" = Returns g (print "You cannot go that way.")).
Proof.
  split; [|repeat split].
  - intros g cmd rest Hs. unfold parse_command. rewrite Hs. reflexivity.
  - intros g Hin.
    change (parse_command g "go") with (_handle_move g "go").
    apply handle_move_absent, no_exit_called_go, Hin.
Qed.

Lemma go_moves_in_direction_of_last_token_witness :
  split (strip (lower " Go  to the   WEST ")) = ["go"; "to"; "the"; "west"]
  /\ parse_command new_game " Go  to the   WEST " = _handle_move new_game "west"
  /\ In (current_room new_game) (values _create_world)
  /\ parse_command new_game "go" = Returns new_game (print "You cannot go that way.").
Proof.
  destruct go_moves_in_direction_of_last_token as (H1 & _ & _ & _ & _ & _ & H7).
  split; [reflexivity|].
  split; [apply (H1 new_game " Go  to the   WEST " ["to"; "the"; "west"]); reflexivity|].
  split; [simpl; auto|].
  apply H7. simpl; auto.
Defined.

(** ** Quitting (C6) *)

(** C6: in every session (any room, running or not) the commands "quit" and
    "exit" set [is_running] to [False] and print the farewell.  In the loop,
    end-of-input and a keyboard interrupt at the read do what the line "quit"
    does: after the prompt, the same farewell, the same session, and the
    loop is over.  The program ends on every input without an exception,
    with the flag down. *)
Theorem quit_exit_and_end_of_input_end_session :
  (forall g, parse_command g "quit" = Returns (set_is_running g false) farewell)
  /\ (forall g, parse_command g "exit" = Returns (set_is_running g false) farewell)
  /\ farewell = ["
Thank you for playing. Goodbye!
"]
  /\ (forall g fuel rest,
        is_running g = true ->
        play_loop (S (S fuel)) g [] =
          Some (Returns (set_is_running g false) (">> " :: farewell))
        /\ play_loop (S (S fuel)) g (Interrupt :: rest) =
             play_loop (S (S fuel)) g []
        /\ play_loop (S (S fuel)) g (Line "quit" :: rest) =
             play_loop (S (S fuel)) g []
        /\ play_loop (S (S fuel)) g (Line "exit" :: rest) =
             play_loop (S (S fuel)) g [])
  /\ (forall input, exists g out,
        main (List.length input + 2) input = Some (Returns g out)
        /\ is_running g = false).
Proof.
  split; [reflexivity|]. split; [reflexivity|]. split; [reflexivity|]. split.
  - intros g fuel rest Hrun.
    rewrite !play_loop_S, Hrun.
    change (strip "quit") with "quit". change (strip "exit") with "exit".
    cbn [is_empty negb].
    change (parse_command g "quit") with (quit_game g).
    change (parse_command g "exit") with (quit_game g).
    rewrite !play_loop_quit_turn. repeat split.
  - exact main_ok.
Qed.

Lemma quit_exit_and_end_of_input_end_session_witness :
  is_running new_game = true
  /\ play_loop 2 new_game [] =
       Some (Returns (set_is_running new_game false) (">> " :: farewell))
  /\ play_loop 2 new_game [Line "quit"; Line "north"] = play_loop 2 new_game [].
Proof.
  destruct quit_exit_and_end_of_input_end_session as (_ & _ & _ & H & _).
  destruct (H new_game 0 [Line "north"] eq_refl) as (H1 & _ & H3 & _).
  split; [reflexivity|]. split; [exact H1 | exact H3].
Defined.

(** ** Case and surrounding whitespace (C7) *)

Lemma parse_command_normal (g : AdventureGame) (a b : string) :
  lower (strip a) = lower (strip b) -> parse_command g a = parse_command g b.
Proof. intros H. unfold parse_command. now rewrite !lower_strip, H. Qed.

(** C7: two raw lines that are equal once trimmed and lower-cased act alike:
    from the same session [parse_command] gives the same session and the same
    output on both, and so does a turn of the loop that reads one or the
    other. *)
Theorem normalised_equal_lines_act_alike :
  forall a b,
    lower (strip a) = lower (strip b) ->
    (forall g, parse_command g a = parse_command g b)
    /\ (forall fuel g rest,
          play_loop fuel g (Line a :: rest) = play_loop fuel g (Line b :: rest)).
Proof.
  intros a b H. split.
  - intros g. now apply parse_command_normal.
  - intros [|fuel] g rest; [reflexivity|].
    rewrite !play_loop_S.
    assert (He : is_empty (strip a) = is_empty (strip b))
      by (rewrite <- (is_empty_lower (strip a)), H; apply is_empty_lower).
    assert (Hp : parse_command g (strip a) = parse_command g (strip b))
      by (apply parse_command_normal; now rewrite !strip_idem).
    now rewrite He, Hp.
Qed.

Lemma normalised_equal_lines_act_alike_witness :
  lower (strip "  NORTH") = lower (strip "North ")
  /\ parse_command new_game "  NORTH" = parse_command new_game "North "
  /\ play_loop 5 new_game [Line "  NORTH"; Line "west"] =
     play_loop 5 new_game [Line "North "; Line "west"].
Proof.
  destruct (normalised_equal_lines_act_alike "  NORTH" "North " eq_refl) as [H1 H2].
  split; [reflexivity|]. split; [apply H1 | apply H2].
Defined.

Example north_in_any_case (g : AdventureGame) :
  parse_command g "NORTH" = parse_command g "north"
  /\ parse_command g "North" = parse_command g "north"
  /\ parse_command g "north" = _handle_move g "north".
Proof. repeat split. Qed.

(** ** Looking (C8) *)

(** C8: in every session "look" and "l" are the same action; it returns the
    session as it was (same position, same running flag) and prints the
    description of the current room; "look" repeated any number of times
    leaves the session as it was and prints that same description each
    time. *)
Theorem look_changes_nothing_and_repeats :
  forall g,
    parse_command g "l" = parse_command g "look"
    /\ parse_command g "look" =
         Returns g (print (nl ++ get_description (current_room g)))
    /\ (forall n,
          run_commands g (repeat "look" n) =
            Returns g (List.concat (repeat (print (nl ++ get_description (current_room g))) n))).
Proof.
  intros g. split; [reflexivity|]. split; [reflexivity|].
  induction n as [|n IH]; [reflexivity|].
  cbn [repeat run_commands].
  change (parse_command g "look") with (look g). unfold look.
  rewrite IH. reflexivity.
Qed.

Example look_three_times :
  run_commands new_game ["look"; "l"; "look"] =
    Returns new_game
      (print (nl ++ get_description start_hall)
       ++ print (nl ++ get_description start_hall)
       ++ print (nl ++ get_description start_hall))%list.
Proof. reflexivity. Qed.

(** ** Unknown commands (C9) *)

(** C9, as stated, fails: the claim asks for a message that holds the input
    as the player typed it.  The message holds the command after
    [command = command.lower().strip()]: for "DANCE" it names 'dance', and
    the text "DANCE" is nowhere in it. *)
Lemma unknown_command_echo_is_not_the_raw_input :
  ~ (forall g cmd verb rest,
        is_running g = true ->
        split (strip (lower cmd)) = verb :: rest ->
        unrecognized verb = true ->
        exists msg, parse_command g cmd = Returns g [msg]
                    /\ contains msg cmd = true
                    /\ contains msg "Try 'go north' or 'quit'." = true).
Proof.
  intros H.
  destruct (H new_game "DANCE" "dance" [] eq_refl eq_refl eq_refl)
    as (msg & Hp & Hc & _).
  injection Hp as <-.
  vm_compute in Hc. discriminate Hc.
Qed.

(** C9, amended: for every input whose first token, after normalisation, is
    none of "north", "south", "east", "west", "go", "quit", "exit", "look",
    "l", the command returns the session as it was (same position, still
    running) and prints one message: "Unknown command: '", the input
    lower-cased and trimmed, and "'. Try 'go north' or 'quit'.".  The echo is
    the input as typed when the input is already in lower case and
    trimmed. *)
Theorem unknown_command_echoes_normalised_input :
  forall g cmd verb rest,
    split (strip (lower cmd)) = verb :: rest ->
    unrecognized verb = true ->
    parse_command g cmd =
      Returns g (print ("Unknown command: '" ++ strip (lower cmd)
                        ++ "'. Try 'go north' or 'quit'."))
    /\ (strip (lower cmd) = cmd ->
        parse_command g cmd =
          Returns g (print ("Unknown command: '" ++ cmd
                            ++ "'. Try 'go north' or 'quit'."))).
Proof.
  intros g cmd verb rest Hs Hu.
  assert (Hp : parse_command g cmd =
               Returns g (print ("Unknown command: '" ++ strip (lower cmd)
                                 ++ "'. Try 'go north' or 'quit'."))).
  { unfold unrecognized in Hu.
    apply andb_true_iff in Hu. destruct Hu as [Hu Hl].
    apply andb_true_iff in Hu. destruct Hu as [Hm Hq].
    apply negb_true_iff in Hm, Hq, Hl.
    unfold parse_command. rewrite Hs, Hm, Hq, Hl. reflexivity. }
  split; [exact Hp|].
  intros Hn. rewrite Hp, Hn. reflexivity.
Qed.

Lemma unknown_command_echoes_normalised_input_witness :
  (split (strip (lower "  Dance  NOW ")) = ["dance"; "now"]
   /\ unrecognized "dance" = true)
  /\ parse_command new_game "  Dance  NOW " =
       Returns new_game ["Unknown command: 'dance  now'. Try 'go north' or 'quit'.
"].
Proof.
  split; [split; reflexivity|].
  apply (unknown_command_echoes_normalised_input
           new_game "  Dance  NOW " "dance" ["now"]); reflexivity.
Defined.

(** ** The current room stays in the world (C10) *)

Lemma kept_ok_prepend (g : AdventureGame) (o : stdout) r :
  kept_ok g r -> kept_ok g (option_map (prepend o) r).
Proof. destruct r as [[g' o'|e o']|]; simpl; auto. Qed.

Lemma kept_ok_next_turn (g g1 : AdventureGame) (o1 : stdout) loop rest :
  rooms g1 = rooms g ->
  kept_ok g1 (loop g1 rest) ->
  kept_ok g (next_turn loop (Returns g1 o1) rest).
Proof.
  intros Hr H. simpl. apply kept_ok_prepend.
  destruct (loop g1 rest) as [[g' o'|e o']|]; simpl in *; auto.
  destruct H as [H1 H2]. split; [congruence | exact H2].
Qed.

Lemma play_loop_keeps_ok (fuel : nat) :
  forall g input, session_ok g -> kept_ok g (play_loop fuel g input).
Proof.
  induction fuel as [|fuel IH]; intros g input Hok; [exact I|].
  rewrite play_loop_S.
  destruct (is_running g); [|now split].
  apply kept_ok_prepend.
  destruct input as [|[text|] rest].
  - apply kept_ok_next_turn; [reflexivity | now apply IH].
  - destruct (negb (is_empty (strip text))); [|now apply IH].
    destruct (parse_command_ok g (strip text) Hok) as (g1 & o1 & -> & Hr1 & Hok1).
    apply kept_ok_next_turn; [exact Hr1 | now apply IH].
  - apply kept_ok_next_turn; [reflexivity | now apply IH].
Qed.

(** The only room that a move can make current is the one that
    [self.rooms[next_room_key]] finds. *)
Lemma handle_move_target (g g' : AdventureGame) (d : string) (out : stdout) :
  _handle_move g d = Returns g' out ->
  current_room g' = current_room g
  \/ exists k, get (connections (current_room g)) d = Some k
               /\ get (rooms g) k = Some (current_room g').
Proof.
  unfold _handle_move, look.
  destruct (mem _ d); [|intros [= <- _]; now left].
  destruct (get (connections _) d) as [k|]; [|discriminate].
  destruct (get (rooms g) k) as [r|] eqn:Hk; [|discriminate]. simpl.
  destruct (is_end r); intros [= <- _]; right; exists k; now split.
Qed.

(** C10: the session that [AdventureGame()] builds has its current room in
    its world, at the key 'start_hall', and that world is closed.  From any
    session whose world is closed and whose current room is in the world,
    every operation ([_handle_move], [look], [quit_game], [parse_command],
    the loop of [play]) returns without [KeyError], leaves the world as it
    was and leaves the current room in the world; the loop does so for every
    input, within one test of its condition per event and two more.  A move
    that changes the current room takes the new one from the lookup in
    [rooms]. *)
Theorem current_room_stays_in_world :
  (AdventureGame_init = Returns new_game []
   /\ get (rooms new_game) "start_hall" = Some (current_room new_game)
   /\ session_ok new_game)
  /\ (forall g,
        session_ok g ->
        (forall d, exists g' out,
            _handle_move g d = Returns g' out
            /\ rooms g' = rooms g
            /\ In (current_room g') (values (rooms g'))
            /\ session_ok g')
        /\ (forall cmd, exists g' out,
              parse_command g cmd = Returns g' out
              /\ rooms g' = rooms g
              /\ In (current_room g') (values (rooms g'))
              /\ session_ok g')
        /\ (exists out, look g = Returns g out)
        /\ (exists out, quit_game g = Returns (set_is_running g false) out
                        /\ session_ok (set_is_running g false))
        /\ (forall fuel input, kept_ok g (play_loop fuel g input))
        /\ (forall input fuel,
              List.length input + 2 <= fuel ->
              exists g' out,
                play_loop fuel g input = Some (Returns g' out)
                /\ rooms g' = rooms g
                /\ session_ok g'
                /\ is_running g' = false))
  /\ (forall g g' d out,
        _handle_move g d = Returns g' out ->
        current_room g' = current_room g
        \/ exists k, get (connections (current_room g)) d = Some k
                     /\ get (rooms g) k = Some (current_room g')).
Proof.
  split; [|split].
  - split; [reflexivity|]. split; [reflexivity | exact new_game_ok].
  - intros g Hok. repeat apply conj.
    + intros d. destruct (handle_move_ok g d Hok) as (g' & out & H1 & H2 & H3).
      exists g', out. repeat split; try assumption; apply H3.
    + intros cmd. destruct (parse_command_ok g cmd Hok) as (g' & out & H1 & H2 & H3).
      exists g', out. repeat split; try assumption; apply H3.
    + eexists. reflexivity.
    + eexists. split; [reflexivity | exact Hok].
    + intros fuel input. now apply play_loop_keeps_ok.
    + intros input fuel Hfuel. now apply play_loop_ok.
  - exact handle_move_target.
Qed.

Lemma current_room_stays_in_world_witness :
  session_ok new_game
  /\ (exists g' out, parse_command new_game "go north" = Returns g' out
                     /\ rooms g' = rooms new_game
                     /\ In (current_room g') (values (rooms g'))
                     /\ session_ok g')
  /\ kept_ok new_game (play_loop 4 new_game [Line "north"; Line "west"; Line "east"]).
Proof.
  destruct current_room_stays_in_world as ((_ & _ & Hok) & H & _).
  destruct (H new_game Hok) as (_ & Hp & _ & _ & Hl & _).
  split; [exact Hok|]. split; [apply Hp | apply Hl].
Defined.

(** * Further properties of the engine *)

(** ** Blank lines *)

Lemma strip_lower_empty (cmd : string) :
  strip cmd = "" -> strip (lower cmd) = "".
Proof. intros H. now rewrite lower_strip, H. Qed.

(** A line that is empty once trimmed does nothing: [parse_command] returns
    the session as it was and prints nothing, and a turn of the loop that
    reads such a line writes the prompt only and goes on with the next
    event. *)
Theorem blank_line_is_a_noop :
  forall g cmd,
    strip cmd = "" ->
    parse_command g cmd = Returns g []
    /\ (forall fuel rest,
          is_running g = true ->
          play_loop (S fuel) g (Line cmd :: rest) =
            option_map (prepend [">> "]) (play_loop fuel g rest)).
Proof.
  intros g cmd H. split.
  - unfold parse_command. now rewrite (strip_lower_empty cmd H).
  - intros fuel rest Hrun. rewrite play_loop_S, Hrun, H. reflexivity.
Qed.

Lemma blank_line_is_a_noop_witness :
  strip "    " = ""
  /\ parse_command new_game "    " = Returns new_game []
  /\ play_loop 3 new_game [Line "    "; Line "quit"] =
       option_map (prepend [">> "]) (play_loop 2 new_game [Line "quit"]).
Proof.
  destruct (blank_line_is_a_noop new_game "    " eq_refl) as [H1 H2].
  split; [reflexivity|]. split; [exact H1 | now apply H2].
Defined.

(** ** Words after the verb *)

(** For every verb but "go" the command is decided by its first token: the
    words that follow a direction word, "quit", "exit", "look" or "l" are
    ignored. *)
Theorem words_after_the_verb_are_ignored :
  forall g cmd verb rest,
    split (strip (lower cmd)) = verb :: rest ->
    (in_list verb ["north"; "south"; "east"; "west"] = true ->
     parse_command g cmd = _handle_move g verb)
    /\ (in_list verb ["quit"; "exit"] = true ->
        parse_command g cmd = quit_game g)
    /\ (in_list verb ["look"; "l"] = true ->
        parse_command g cmd = look g).
Proof.
  intros g cmd verb rest Hs. unfold parse_command. rewrite Hs.
  unfold in_list. cbn [existsb].
  repeat split; intros H;
    repeat (apply orb_true_iff in H; destruct H as [H|H];
            [apply String.eqb_eq in H; subst verb; reflexivity|]);
    discriminate H.
Qed.

Lemma words_after_the_verb_are_ignored_witness :
  split (strip (lower "North by northwest")) = ["north"; "by"; "northwest"]
  /\ in_list "north" ["north"; "south"; "east"; "west"] = true
  /\ parse_command new_game "North by northwest" = _handle_move new_game "north".
Proof.
  split; [reflexivity|]. split; [reflexivity|].
  apply (proj1 (words_after_the_verb_are_ignored
                  new_game "North by northwest" "north" ["by"; "northwest"] eq_refl)).
  reflexivity.
Defined.

(** ** Moves that go on *)

(** A move along an exit to a room whose [is_end] flag is not set makes that
    room current, prints its description and leaves the running flag and the
    world as they were. *)
Theorem move_into_plain_room_goes_on :
  forall g d k r,
    get (connections (current_room g)) d = Some k ->
    get (rooms g) k = Some r ->
    is_end r = false ->
    _handle_move g d =
      Returns {| rooms := rooms g; current_room := r; is_running := is_running g |}
              (print (nl ++ get_description r)).
Proof.
  intros g d k r Hd Hk He.
  rewrite (handle_move_present g d k r Hd Hk), He. reflexivity.
Qed.

Lemma move_into_plain_room_goes_on_witness :
  (get (connections (current_room new_game)) "north" = Some "dark_corridor"
   /\ get (rooms new_game) "dark_corridor" = Some dark_corridor
   /\ is_end dark_corridor = false)
  /\ _handle_move new_game "north" =
       Returns {| rooms := rooms new_game; current_room := dark_corridor;
                  is_running := is_running new_game |}
               (print (nl ++ get_description dark_corridor)).
Proof.
  split; [repeat split|].
  apply (move_into_plain_room_goes_on new_game "north" "dark_corridor" dark_corridor);
    reflexivity.
Defined.

(** ** What a command can raise *)

Lemma handle_move_raises (g : AdventureGame) (d : string) (e : exn) (out : stdout) :
  _handle_move g d = Raises e out ->
  out = []
  /\ exists k, e = KeyError k
               /\ get (connections (current_room g)) d = Some k
               /\ get (rooms g) k = None.
Proof.
  unfold _handle_move, look.
  destruct (mem _ d) eqn:Hm; [|discriminate].
  apply mem_get in Hm. destruct Hm as [k Hk]. rewrite Hk.
  destruct (get (rooms g) k) as [r|] eqn:Hr.
  - simpl. destruct (is_end r); discriminate.
  - intros [= <- <-]. split; [reflexivity|]. now exists k.
Qed.

(** The only exception that a command raises is the [KeyError] of an exit
    whose target is no key of the world; it is raised before anything is
    printed, and the key it names is that target. *)
Theorem command_raises_only_on_dangling_exit :
  forall g cmd e out,
    parse_command g cmd = Raises e out ->
    out = []
    /\ exists d k, e = KeyError k
                   /\ get (connections (current_room g)) d = Some k
                   /\ get (rooms g) k = None.
Proof.
  intros g cmd e out. unfold parse_command, quit_game, look.
  destruct (split _) as [|verb rest]; [discriminate|].
  destruct (in_list verb ["north"; "south"; "east"; "west"; "go"]).
  - intros H. apply handle_move_raises in H. destruct H as [Ho (k & He & Hd & Hk)].
    split; [exact Ho|]. eauto.
  - destruct (in_list verb ["quit"; "exit"]); [discriminate|].
    destruct (in_list verb ["look"; "l"]); discriminate.
Qed.

Lemma command_raises_only_on_dangling_exit_witness :
  parse_command dangling_game "go north" = Raises (KeyError "nowhere") []
  /\ ([] : stdout) = []
  /\ exists d k, KeyError "nowhere" = KeyError k
                 /\ get (connections (current_room dangling_game)) d = Some k
                 /\ get (rooms dangling_game) k = None.
Proof.
  split; [reflexivity|].
  apply (command_raises_only_on_dangling_exit dangling_game "go north").
  reflexivity.
Defined.

(** ** What a command leaves alone *)

Lemma handle_move_frame (g g' : AdventureGame) (d : string) (out : stdout) :
  _handle_move g d = Returns g' out ->
  rooms g' = rooms g /\ exists text, out = print text.
Proof.
  unfold _handle_move, look.
  destruct (mem _ d); [|intros [= <- <-]; eauto].
  destruct (get (connections _) d) as [k|]; [|discriminate].
  destruct (get (rooms g) k) as [r|]; [|discriminate]. simpl.
  destruct (is_end r); intros [= <- <-]; eauto.
Qed.

(** The tokens of a string are none exactly when the string is blank. *)
Lemma split_from_nil (s : string) :
  forall cur, split_from cur s = [] -> cur = "" /\ lstrip s = "".
Proof.
  induction s as [|c s IH]; intros cur; cbn [split_from lstrip].
  - destruct cur; [auto | discriminate].
  - destruct (is_space c).
    + destruct cur; cbn [is_empty]; [|discriminate].
      intros H. split; [reflexivity | exact (proj2 (IH _ H))].
    + intros H. destruct (IH _ H) as [E _]. destruct cur; discriminate E.
Qed.

Lemma no_tokens_blank (cmd : string) :
  split (strip (lower cmd)) = [] -> strip cmd = "".
Proof.
  intros H. apply split_from_nil in H. destruct H as [_ H].
  rewrite lstrip_clean in H
    by (apply starts_clean_rstrip, starts_clean_lstrip).
  rewrite lower_strip in H.
  destruct (strip cmd); [reflexivity | discriminate H].
Qed.

Lemma tokens_not_blank (cmd verb : string) (rest : list string) :
  split (strip (lower cmd)) = verb :: rest -> strip cmd <> "".
Proof.
  intros H E. rewrite (strip_lower_empty cmd E) in H. discriminate H.
Qed.

(** No command changes the world: the [rooms] mapping after a command is
    the one before it.  A command on a line that is blank (empty once
    trimmed) prints nothing and returns the session as it was; a command on
    any other line prints exactly one message. *)
Theorem command_keeps_world_and_prints_once :
  forall g cmd g' out,
    parse_command g cmd = Returns g' out ->
    rooms g' = rooms g
    /\ ((strip cmd = "" /\ g' = g /\ out = [])
        \/ (strip cmd <> "" /\ exists text, out = print text)).
Proof.
  intros g cmd g' out. unfold parse_command, quit_game, look.
  destruct (split _) as [|verb rest] eqn:Hs.
  - intros [= <- <-]. split; [reflexivity|]. left.
    split; [exact (no_tokens_blank cmd Hs) | now split].
  - pose proof (tokens_not_blank cmd verb rest Hs) as Hne.
    destruct (in_list verb ["north"; "south"; "east"; "west"; "go"]).
    + intros H. apply handle_move_frame in H. destruct H as [Hr Ho]. auto.
    + destruct (in_list verb ["quit"; "exit"]); [intros [= <- <-]; eauto|].
      destruct (in_list verb ["look"; "l"]); intros [= <- <-]; eauto.
Qed.

Lemma command_keeps_world_and_prints_once_witness :
  parse_command new_game "dance" =
    Returns new_game (print "Unknown command: 'dance'. Try 'go north' or 'quit'.")
  /\ rooms new_game = rooms new_game
  /\ ((strip "dance" = "" /\ new_game = new_game
       /\ print "Unknown command: 'dance'. Try 'go north' or 'quit'." = [])
      \/ (strip "dance" <> ""
          /\ exists text,
               print "Unknown command: 'dance'. Try 'go north' or 'quit'." = print text)).
Proof.
  split; [reflexivity|].
  apply (command_keeps_world_and_prints_once new_game "dance" new_game).
  reflexivity.
Defined.

(** ** How a session ends *)

Lemma handle_move_ends (g g' : AdventureGame) (d : string) (out : stdout) :
  is_running g = true ->
  _handle_move g d = Returns g' out ->
  is_running g' = false ->
  is_end (current_room g') = true
  /\ out = print (nl ++ get_description (current_room g')).
Proof.
  intros Hrun. unfold _handle_move, look.
  destruct (mem _ d); [|intros [= <- <-]; congruence].
  destruct (get (connections _) d) as [k|]; [|discriminate].
  destruct (get (rooms g) k) as [r|]; [|discriminate]. simpl.
  destruct (is_end r) eqn:He; intros [= <- <-]; simpl; [auto | congruence].
Qed.

Lemma handle_move_ends_at (g g' : AdventureGame) (d : string) (out : stdout) :
  is_running g = true ->
  _handle_move g d = Returns g' out ->
  is_running g' = false ->
  exists k r,
    get (connections (current_room g)) d = Some k
    /\ get (rooms g) k = Some r
    /\ is_end r = true
    /\ g' = {| rooms := rooms g; current_room := r; is_running := false |}
    /\ out = print (nl ++ get_description r).
Proof.
  intros Hrun. unfold _handle_move, look.
  destruct (mem _ d); [|intros [= <- <-]; congruence].
  destruct (get (connections _) d) as [k|]; [|discriminate].
  destruct (get (rooms g) k) as [r|] eqn:Hk; [|discriminate]. simpl.
  destruct (is_end r) eqn:He; intros [= <- <-]; simpl; [|congruence].
  intros _. exists k, r. repeat split; assumption.
Qed.

(** A command ends a running session in two ways only.  Either its first
    token is "quit" or "exit": the farewell is printed and only the running
    flag changes.  Or its first token is a direction word or "go", and the
    direction it names (the last token after "go", else the word itself) is
    an exit of the current room to a room of the world whose [is_end] flag is
    set: that room becomes current and its description is printed.  No other
    command ends a session. *)
Theorem session_ends_by_quit_or_terminal_room :
  forall g cmd g' out,
    is_running g = true ->
    parse_command g cmd = Returns g' out ->
    is_running g' = false ->
    exists verb rest,
      split (strip (lower cmd)) = verb :: rest
      /\ ((in_list verb ["quit"; "exit"] = true
           /\ g' = set_is_running g false
           /\ out = farewell)
          \/ (in_list verb ["north"; "south"; "east"; "west"; "go"] = true
              /\ exists k r,
                   get (connections (current_room g))
                       (if String.eqb verb "go" then last (verb :: rest) verb else verb)
                   = Some k
                   /\ get (rooms g) k = Some r
                   /\ is_end r = true
                   /\ g' = {| rooms := rooms g; current_room := r;
                              is_running := false |}
                   /\ out = print (nl ++ get_description r))).
Proof.
  intros g cmd g' out Hrun. unfold parse_command, quit_game, look.
  destruct (split _) as [|verb rest]; [intros [= <- <-]; congruence|].
  intros H Hend. exists verb, rest. split; [reflexivity|].
  destruct (in_list verb ["north"; "south"; "east"; "west"; "go"]).
  - right. split; [reflexivity|].
    exact (handle_move_ends_at g g' _ out Hrun H Hend).
  - destruct (in_list verb ["quit"; "exit"]).
    + left. injection H as <- <-. now repeat split.
    + destruct (in_list verb ["look"; "l"]); injection H as <- <-; congruence.
Qed.

Lemma session_ends_by_quit_or_terminal_room_witness :
  (is_running new_game = true
   /\ parse_command new_game "go east" =
        Returns {| rooms := _create_world; current_room := treasure_chamber;
                   is_running := false |}
                (print (nl ++ get_description treasure_chamber)))
  /\ exists verb rest,
       split (strip (lower "go east")) = verb :: rest
       /\ ((in_list verb ["quit"; "exit"] = true
            /\ {| rooms := _create_world; current_room := treasure_chamber;
                  is_running := false |} = set_is_running new_game false
            /\ print (nl ++ get_description treasure_chamber) = farewell)
           \/ (in_list verb ["north"; "south"; "east"; "west"; "go"] = true
               /\ exists k r,
                    get (connections (current_room new_game))
                        (if String.eqb verb "go" then last (verb :: rest) verb else verb)
                    = Some k
                    /\ get (rooms new_game) k = Some r
                    /\ is_end r = true
                    /\ {| rooms := _create_world; current_room := treasure_chamber;
                          is_running := false |}
                       = {| rooms := rooms new_game; current_room := r;
                            is_running := false |}
                    /\ print (nl ++ get_description treasure_chamber)
                       = print (nl ++ get_description r))).
Proof.
  split; [split; reflexivity|].
  apply (session_ends_by_quit_or_terminal_room new_game "go east"
           {| rooms := _create_world; current_room := treasure_chamber;
              is_running := false |});
    reflexivity.
Defined.

Lemma ends_with_app (x : string) (o o' : stdout) :
  ends_with x o' -> ends_with x (o ++ o')%list.
Proof. intros [b ->]. exists (o ++ b)%list. now rewrite app_assoc. Qed.

Lemma ends_with_print (text : string) : ends_with (text ++ nl) (print text).
Proof. now exists []. Qed.

Lemma string_app_assoc (a b c : string) : (a ++ b) ++ c = a ++ b ++ c.
Proof. induction a as [|x a IH]; simpl; [reflexivity | now rewrite IH]. Qed.

Lemma closing_piece_app (g' : AdventureGame) (o o' : stdout) :
  closing_piece g' o' -> closing_piece g' (o ++ o')%list.
Proof.
  intros [H|[He H]]; [left | right; split; [exact He|]]; now apply ends_with_app.
Qed.

Lemma closing_piece_farewell (g' : AdventureGame) : closing_piece g' farewell.
Proof. left. exists []. reflexivity. Qed.

Lemma parse_command_closing_piece (g g' : AdventureGame) (cmd : string) (out : stdout) :
  is_running g = true ->
  parse_command g cmd = Returns g' out ->
  is_running g' = false ->
  closing_piece g' out.
Proof.
  intros Hrun. unfold parse_command, quit_game, look.
  destruct (split _) as [|verb rest]; [intros [= <- <-]; congruence|].
  destruct (in_list verb ["north"; "south"; "east"; "west"; "go"]).
  - intros H Hend.
    destruct (handle_move_ends g g' _ out Hrun H Hend) as [He ->].
    right. split; [exact He|]. rewrite <- string_app_assoc. apply ends_with_print.
  - destruct (in_list verb ["quit"; "exit"]);
      [intros [= <- <-] _; apply closing_piece_farewell|].
    destruct (in_list verb ["look"; "l"]); intros [= <- <-]; congruence.
Qed.

Lemma play_loop_closing_piece (fuel : nat) :
  forall g input g' out,
    is_running g = true ->
    play_loop fuel g input = Some (Returns g' out) ->
    is_running g' = false /\ closing_piece g' out.
Proof.
  induction fuel as [|fuel IH]; intros g input g' out Hrun; [discriminate|].
  rewrite play_loop_S, Hrun.
  assert (Hquit : forall rest,
             option_map (prepend [">> "])
               (next_turn (play_loop fuel) (quit_game g) rest)
             = Some (Returns g' out) ->
             is_running g' = false /\ closing_piece g' out).
  { intros rest. unfold quit_game, next_turn. fold farewell.
    destruct fuel as [|fuel']; [discriminate|].
    rewrite play_loop_ended by reflexivity. simpl.
    intros [= <- <-]. split; [reflexivity|].
    apply (closing_piece_app _ [">> "]).
    apply closing_piece_farewell. }
  destruct input as [|[text|] rest]; [apply Hquit | | apply Hquit].
  destruct (negb (is_empty (strip text))).
  - destruct (parse_command g (strip text)) as [g1 o1|e o1] eqn:Hp; [|discriminate].
    unfold next_turn.
    destruct (is_running g1) eqn:Hrun1.
    + destruct (play_loop fuel g1 rest) as [[g2 o2|e o2]|] eqn:Hl; try discriminate.
      simpl. intros [= <- <-].
      destruct (IH g1 rest g2 o2 Hrun1 Hl) as [Hend Hc].
      split; [exact Hend|].
      apply (closing_piece_app _ [">> "]), closing_piece_app, Hc.
    + destruct fuel as [|fuel']; [discriminate|].
      rewrite play_loop_ended by exact Hrun1. simpl.
      intros [= <- <-]. split; [exact Hrun1|].
      apply (closing_piece_app _ [">> "]). rewrite app_nil_r.
      exact (parse_command_closing_piece g g1 (strip text) o1 Hrun Hp Hrun1).
  - destruct (play_loop fuel g rest) as [[g2 o2|e o2]|] eqn:Hl; try discriminate.
    simpl. intros [= <- <-].
    destruct (IH g rest g2 o2 Hrun Hl) as [Hend Hc].
    split; [exact Hend|]. now apply (closing_piece_app _ [">> "]).
Qed.

(** The only room of the world with [is_end] set is the Treasure Chamber. *)
Lemma terminal_room_of_world (r : Room) :
  In r (values _create_world) -> is_end r = true -> r = treasure_chamber.
Proof.
  simpl. intros [<-|[<-|[<-|[<-|[]]]]]; simpl; intros H;
    first [discriminate H | reflexivity].
Qed.

(** Every run of the loop that starts in a running session and returns has
    the flag down and ends its output with the farewell or with the
    description of the terminal room in which it stopped.  The program
    itself returns on every input; it first writes the welcome, the
    description of the Entrance Hall and a prompt, and last the farewell or,
    with the player in the Treasure Chamber, the description of that
    room. *)
Theorem run_closes_with_farewell_or_victory :
  (forall fuel g input g' out,
      is_running g = true ->
      play_loop fuel g input = Some (Returns g' out) ->
      is_running g' = false /\ closing_piece g' out)
  /\ (forall input, exists g out,
        main (List.length input + 2) input =
          Some (Returns g (print "Welcome to the Minimal Text Adventure!"
                           ++ print (nl ++ get_description start_hall)
                           ++ ">> " :: out)%list)
        /\ (ends_with (nl ++ "Thank you for playing. Goodbye!" ++ nl) (">> " :: out)
            \/ (current_room g = treasure_chamber
                /\ ends_with (nl ++ get_description treasure_chamber ++ nl)
                             (">> " :: out)))).
Proof.
  split; [intros fuel; apply play_loop_closing_piece|].
  intros input.
  destruct (play_loop_ok input new_game (List.length input + 2) new_game_ok (le_n _))
    as (g & out & Hl & Hr & [_ Hin] & _).
  destruct (play_loop_closing_piece _ new_game input g out eq_refl Hl) as [_ Hc].
  assert (Hout : exists out', out = ">> " :: out').
  { replace (List.length input + 2) with (S (List.length input + 1)) in Hl by lia.
    rewrite play_loop_S in Hl. simpl is_running in Hl. cbv iota in Hl.
    destruct (match input with [] => _ | _ => _ end) as [[g1 o1|e o1]|];
      try discriminate Hl.
    injection Hl as _ <-. now eexists. }
  destruct Hout as [out' ->].
  exists g, out'. split.
  - unfold main. rewrite AdventureGame_init_new_game. unfold play, look.
    rewrite Hl. reflexivity.
  - destruct Hc as [Hc|[He Hc]]; [now left|].
    right. rewrite Hr in Hin.
    rewrite (terminal_room_of_world _ Hin He) in *. now split.
Qed.

Lemma run_closes_with_farewell_or_victory_witness :
  is_running new_game = true
  /\ play_loop 3 new_game [Line "north"] =
       Some (Returns {| rooms := _create_world; current_room := dark_corridor;
                        is_running := false |}
                     (">> " :: print (nl ++ get_description dark_corridor)
                      ++ ">> " :: farewell)%list)
  /\ closing_piece {| rooms := _create_world; current_room := dark_corridor;
                      is_running := false |}
                   (">> " :: print (nl ++ get_description dark_corridor)
                    ++ ">> " :: farewell)%list.
Proof.
  split; [reflexivity|]. split; [reflexivity|].
  apply (proj1 run_closes_with_farewell_or_victory 3 new_game [Line "north"]);
    reflexivity.
Defined.

(** ** Input that is never read *)

Lemma play_loop_ended_any_input (fuel : nat) (g : AdventureGame)
    (input input' : list stdin_event) :
  is_running g = false -> play_loop fuel g input = play_loop fuel g input'.
Proof.
  intros H. destruct fuel as [|fuel]; [reflexivity|].
  now rewrite !play_loop_ended.
Qed.

Lemma next_turn_quit_any_input (fuel : nat) (g : AdventureGame)
    (input input' : list stdin_event) :
  next_turn (play_loop fuel) (quit_game g) input
  = next_turn (play_loop fuel) (quit_game g) input'.
Proof.
  unfold quit_game, next_turn.
  now rewrite (play_loop_ended_any_input fuel _ input input').
Qed.

(** A line whose first token is "quit" or "exit" is not blank, and the loop
    hands it to [parse_command], which quits. *)
Lemma quit_line_quits (g : AdventureGame) (line verb : string) (ws : list string) :
  split (strip (lower line)) = verb :: ws ->
  in_list verb ["quit"; "exit"] = true ->
  is_empty (strip line) = false
  /\ parse_command g (strip line) = quit_game g.
Proof.
  intros Hs Hv. split.
  - destruct (strip line) eqn:E; [|reflexivity].
    rewrite lower_strip, E in Hs. discriminate Hs.
  - unfold parse_command.
    rewrite lower_strip, strip_idem, <- lower_strip, Hs.
    unfold in_list in *. cbn [existsb] in *.
    repeat (apply orb_true_iff in Hv; destruct Hv as [Hv|Hv];
            [apply String.eqb_eq in Hv; subst verb; reflexivity|]).
    discriminate Hv.
Qed.

(** The loop reads nothing after the event that ends the session: what
    follows a keyboard interrupt, or a line whose first token is "quit" or
    "exit", has no effect on the run.  An interrupt acts as the end of the
    input at that point. *)
Theorem input_after_quit_is_not_read :
  forall (before rest : list stdin_event) fuel g,
    play_loop fuel g (before ++ Interrupt :: rest) = play_loop fuel g before
    /\ (forall line verb ws,
          split (strip (lower line)) = verb :: ws ->
          in_list verb ["quit"; "exit"] = true ->
          play_loop fuel g (before ++ Line line :: rest) =
            play_loop fuel g (before ++ [Line line])).
Proof.
  induction before as [|ev before IH]; intros rest fuel g; cbn [app];
    (destruct fuel as [|fuel]; [split; [reflexivity | intros; reflexivity]|]);
    (destruct (is_running g) eqn:Hrun;
     [|split; [|intros]; now apply play_loop_ended_any_input]).
  - split.
    + rewrite !play_loop_S, Hrun.
      now rewrite (next_turn_quit_any_input fuel g rest []).
    + intros line verb ws Hs Hv. rewrite !play_loop_S, Hrun.
      destruct (quit_line_quits g line verb ws Hs Hv) as [-> ->].
      cbn [negb].
      now rewrite (next_turn_quit_any_input fuel g rest []).
  - split; [|intros line verb ws Hs Hv]; rewrite !play_loop_S, Hrun;
      destruct ev as [text|].
    + destruct (negb (is_empty (strip text))).
      * destruct (parse_command g (strip text)) as [g1 o1|e o1]; [|reflexivity].
        unfold next_turn. now rewrite (proj1 (IH rest fuel g1)).
      * now rewrite (proj1 (IH rest fuel g)).
    + now rewrite (next_turn_quit_any_input fuel g _ before).
    + destruct (negb (is_empty (strip text))).
      * destruct (parse_command g (strip text)) as [g1 o1|e o1]; [|reflexivity].
        unfold next_turn. now rewrite (proj2 (IH rest fuel g1) line verb ws Hs Hv).
      * now rewrite (proj2 (IH rest fuel g) line verb ws Hs Hv).
    + now rewrite (next_turn_quit_any_input fuel g _ (before ++ [Line line])).
Qed.

Lemma input_after_quit_is_not_read_witness :
  split (strip (lower " Exit now")) = ["exit"; "now"]
  /\ in_list "exit" ["quit"; "exit"] = true
  /\ play_loop 9 new_game ([Line "north"] ++ Line " Exit now" :: [Line "south"; Line "east"])
     = play_loop 9 new_game ([Line "north"] ++ [Line " Exit now"]).
Proof.
  split; [reflexivity|]. split; [reflexivity|].
  apply (proj2 (input_after_quit_is_not_read
                  [Line "north"] [Line "south"; Line "east"] 9 new_game)
               " Exit now" "exit" ["now"]);
    reflexivity.
Defined.

(** ** Exits of a room *)

Section DictSet.
Context {V : Type}.

Lemma get_set_same (d : dict V) (k : string) (v : V) : get (set d k v) k = Some v.
Proof.
  induction d as [|[k' v'] d IH]; simpl.
  - now rewrite String.eqb_refl.
  - destruct (String.eqb k k') eqn:E; simpl; now rewrite E.
Qed.

Lemma get_set_other (d : dict V) (k k' : string) (v : V) :
  k' <> k -> get (set d k v) k' = get d k'.
Proof.
  intros Hne.
  assert (E' : String.eqb k' k = false) by now apply String.eqb_neq.
  induction d as [|[k0 v0] d IH]; simpl.
  - now rewrite E'.
  - destruct (String.eqb k k0) eqn:E; simpl.
    + apply String.eqb_eq in E. subst k0. now rewrite E'.
    + now rewrite IH.
Qed.

Lemma keys_set (d : dict V) (k : string) (v : V) :
  keys (set d k v) = if mem d k then keys d else (keys d ++ [k])%list.
Proof.
  induction d as [|[k' v'] d IH]; simpl; [reflexivity|].
  destruct (String.eqb k k'); simpl; [reflexivity|].
  rewrite IH. now destruct (mem d k).
Qed.

End DictSet.

Lemma join_snoc (sep x : string) (xs : list string) :
  join sep (xs ++ [x]) =
    match xs with [] => x | _ => join sep xs ++ sep ++ x end.
Proof.
  induction xs as [|y ys IH]; [reflexivity|].
  destruct ys as [|z zs]; [reflexivity|].
  change (join sep ((y :: z :: zs) ++ [x]))
    with (y ++ sep ++ join sep ((z :: zs) ++ [x])).
  rewrite IH.
  change (join sep (y :: z :: zs)) with (y ++ sep ++ join sep (z :: zs)).
  now rewrite !string_app_assoc.
Qed.

(** [add_connection] and the lookup of an exit: the direction that was
    added leads to the target that was given, also when the room had that
    direction before (the old target is replaced); every other direction
    leads where it led; name, description and terminal flag are kept. *)
Theorem add_connection_sets_one_exit :
  forall r direction target,
    get (connections (add_connection r direction target)) direction = Some target
    /\ mem (connections (add_connection r direction target)) direction = true
    /\ (forall d, d <> direction ->
          get (connections (add_connection r direction target)) d
          = get (connections r) d)
    /\ name (add_connection r direction target) = name r
    /\ description (add_connection r direction target) = description r
    /\ is_end (add_connection r direction target) = is_end r.
Proof.
  intros r direction target. simpl.
  split; [apply get_set_same|].
  split; [apply mem_get; eexists; apply get_set_same|].
  split; [|now repeat split].
  intros d Hd. now apply get_set_other.
Qed.

Lemma add_connection_sets_one_exit_witness :
  "east" <> "north"
  /\ get (connections (add_connection start_hall "north" "storage_room")) "east"
     = get (connections start_hall) "east".
Proof.
  split; [discriminate|].
  destruct (add_connection_sets_one_exit start_hall "north" "storage_room")
    as (_ & _ & H & _).
  apply H. discriminate.
Defined.

(** [add_connection] and the description: a direction that the room did not
    have is listed last among the exits (after ", " when there were exits
    before); adding a direction that the room has leaves the description as
    it was, since only the target of the exit changes. *)
Theorem add_connection_extends_description :
  forall r direction target,
    (mem (connections r) direction = true ->
     get_description (add_connection r direction target) = get_description r)
    /\ (mem (connections r) direction = false ->
        get_description (add_connection r direction target) =
          get_description r
          ++ match connections r with [] => "" | _ => ", " end
          ++ direction).
Proof.
  intros r direction target. unfold get_description.
  cbn [name description connections add_connection].
  rewrite keys_set. split; intros ->; [reflexivity|].
  rewrite join_snoc, !string_app_assoc.
  destruct (connections r) as [|[k v] d]; [reflexivity|].
  cbn [keys map fst].
  reflexivity.
Qed.

Lemma add_connection_extends_description_witness :
  mem (connections storage_room) "up" = false
  /\ get_description (add_connection storage_room "up" "start_hall") =
       "--- Storage Room ---
Boxes and old crates are stacked high. A small key is visible beneath a loose floorboard.
Available exits: east, up".
Proof.
  split; [reflexivity|].
  rewrite (proj2 (add_connection_extends_description storage_room "up" "start_hall")
                 eq_refl).
  reflexivity.
Defined.

(** * Properties of [prisoners_dilemma.py] *)

Section NashEquilibria.
Import Dilemma.
Local Open Scope Z_scope.

Variable payoffs : table.
Variables cc cd dc dd : payoff.
Hypothesis Hcc : lookup payoffs ("C", "C") = Some cc.
Hypothesis Hcd : lookup payoffs ("C", "D") = Some cd.
Hypothesis Hdc : lookup payoffs ("D", "C") = Some dc.
Hypothesis Hdd : lookup payoffs ("D", "D") = Some dd.

(** On a table with the four entries the function walks the pairs in the
    order CC, CD, DC, DD and keeps those from which neither change pays. *)
Lemma find_nash_equilibrium_entries :
  find_nash_equilibrium payoffs =
    Ok ((if (fst dc <? fst cc) || (snd cd <? snd cc) then [] else [(("C", "C"), cc)])
        ++ (if (fst dd <? fst cd) || (snd cc <? snd cd) then [] else [(("C", "D"), cd)])
        ++ (if (fst cc <? fst dc) || (snd dd <? snd dc) then [] else [(("D", "C"), dc)])
        ++ (if (fst cd <? fst dd) || (snd dc <? snd dd) then [] else [(("D", "D"), dd)]))%list.
Proof.
  unfold find_nash_equilibrium, STRATEGIES, for_each, nash_step.
  cbn [String.eqb Ascii.eqb Bool.eqb].
  rewrite Hcc, Hcd, Hdc, Hdd.
  destruct cc as [cc1 cc2], cd as [cd1 cd2], dc as [dc1 dc2], dd as [dd1 dd2].
  cbn [fst snd].
  destruct (dc1 <? cc1), (cd2 <? cc2), (dd1 <? cd1), (cc2 <? cd2),
           (cc1 <? dc1), (dd2 <? dc2), (cd1 <? dd1), (dc2 <? dd2);
    reflexivity.
Qed.

End NashEquilibria.

Section NashCharacterised.
Import Dilemma.
Local Open Scope Z_scope.

Lemma in_strategies (s : string) : In s STRATEGIES <-> s = "C" \/ s = "D".
Proof. simpl. intuition congruence. Qed.

(** On a table with an entry for every pair of strategies,
    [find_nash_equilibrium] returns, and the list it returns holds exactly
    the equilibria of the table, each with its payoffs: the pairs at which
    neither player gets strictly fewer years by switching alone. *)
Theorem find_nash_equilibrium_finds_the_equilibria :
  forall payoffs,
    complete payoffs ->
    exists l,
      find_nash_equilibrium payoffs = Ok l
      /\ forall s1 s2 p1 p2,
           In ((s1, s2), (p1, p2)) l <-> equilibrium payoffs s1 s2 p1 p2.
Proof.
  intros payoffs Hc.
  destruct (Hc "C" "C") as [cc Hcc]; [simpl; auto ..|].
  destruct (Hc "C" "D") as [cd Hcd]; [simpl; auto ..|].
  destruct (Hc "D" "C") as [dc Hdc]; [simpl; auto ..|].
  destruct (Hc "D" "D") as [dd Hdd]; [simpl; auto ..|].
  eexists. split;
    [exact (find_nash_equilibrium_entries payoffs cc cd dc dd Hcc Hcd Hdc Hdd)|].
  intros s1 s2 p1 p2. rewrite !in_app_iff. unfold equilibrium.
  split.
  - intros H.
    assert (Hcase :
      (s1 = "C" /\ s2 = "C" /\ cc = (p1, p2) /\ p1 <= fst dc /\ p2 <= snd cd)
      \/ (s1 = "C" /\ s2 = "D" /\ cd = (p1, p2) /\ p1 <= fst dd /\ p2 <= snd cc)
      \/ (s1 = "D" /\ s2 = "C" /\ dc = (p1, p2) /\ p1 <= fst cc /\ p2 <= snd dd)
      \/ (s1 = "D" /\ s2 = "D" /\ dd = (p1, p2) /\ p1 <= fst cd /\ p2 <= snd dc)).
    { destruct H as [H|[H|[H|H]]];
        [left | right; left | right; right; left | right; right; right];
        (destruct (_ || _) eqn:E in H; [contradiction H|]);
        (destruct H as [H|[]]);
        injection H as <- <- Hp;
        apply orb_false_iff in E; destruct E as [E1 E2];
        apply Z.ltb_ge in E1, E2;
        rewrite Hp in E1, E2; cbn [fst snd] in E1, E2; auto. }
    destruct Hcase as [H'|[H'|[H'|H']]];
      destruct H' as (-> & -> & Hp & L1 & L2); subst;
      (split; [simpl; auto|]); (split; [simpl; auto|]);
      (split; [assumption|]);
      (split; intros s' q Hs Hq; apply in_strategies in Hs;
       destruct Hs as [-> | ->];
       first [rewrite Hcc in Hq | rewrite Hcd in Hq | rewrite Hdc in Hq | rewrite Hdd in Hq];
       injection Hq as <-; cbn [fst snd]; first [assumption | lia]).
  - intros (H1 & H2 & H3 & H4 & H5).
    apply in_strategies in H1, H2.
    destruct H1 as [-> | ->], H2 as [-> | ->];
      first [rewrite Hcc in H3 | rewrite Hcd in H3 | rewrite Hdc in H3 | rewrite Hdd in H3];
      injection H3 as ->.
    + left.
      pose proof (H4 "D" dc (or_intror (or_introl eq_refl)) Hdc) as L1.
      pose proof (H5 "D" cd (or_intror (or_introl eq_refl)) Hcd) as L2.
      cbn [fst snd].
      apply Z.ltb_ge in L1, L2. rewrite L1, L2. now left.
    + right; left.
      pose proof (H4 "D" dd (or_intror (or_introl eq_refl)) Hdd) as L1.
      pose proof (H5 "C" cc (or_introl eq_refl) Hcc) as L2.
      cbn [fst snd].
      apply Z.ltb_ge in L1, L2. rewrite L1, L2. now left.
    + right; right; left.
      pose proof (H4 "C" cc (or_introl eq_refl) Hcc) as L1.
      pose proof (H5 "D" dd (or_intror (or_introl eq_refl)) Hdd) as L2.
      cbn [fst snd].
      apply Z.ltb_ge in L1, L2. rewrite L1, L2. now left.
    + right; right; right.
      pose proof (H4 "C" cd (or_introl eq_refl) Hcd) as L1.
      pose proof (H5 "C" dc (or_introl eq_refl) Hdc) as L2.
      cbn [fst snd].
      apply Z.ltb_ge in L1, L2. rewrite L1, L2. now left.
Qed.

End NashCharacterised.

Section NashErrors.
Import Dilemma.

Lemma payoff_matrix_complete : complete PAYOFF_MATRIX.
Proof.
  intros s1 s2 H1 H2. apply in_strategies in H1, H2.
  destruct H1 as [-> | ->], H2 as [-> | ->]; eexists; reflexivity.
Qed.

Lemma find_nash_equilibrium_finds_the_equilibria_witness :
  complete PAYOFF_MATRIX
  /\ exists l,
       find_nash_equilibrium PAYOFF_MATRIX = Ok l
       /\ forall s1 s2 p1 p2,
            In ((s1, s2), (p1, p2)) l <-> equilibrium PAYOFF_MATRIX s1 s2 p1 p2.
Proof.
  split; [exact payoff_matrix_complete|].
  apply (find_nash_equilibrium_finds_the_equilibria PAYOFF_MATRIX).
  exact payoff_matrix_complete.
Defined.

(** The file's closing note: defecting twice is the one equilibrium of
    [PAYOFF_MATRIX], and staying silent twice is its social optimum. *)
Example expected_output_summary :
  find_nash_equilibrium PAYOFF_MATRIX = Ok [(("D", "D"), (5, 5)%Z)]
  /\ find_socially_optimal PAYOFF_MATRIX = Some (("C", "C"), (2, 2)%Z).
Proof. split; reflexivity. Qed.

(** [find_nash_equilibrium] raises [KeyError] exactly when the table lacks
    one of the four pairs of strategies, and the error names the first pair
    that is missing in the order (C,C), (D,C), (C,D), (D,D), the order of
    its lookups; on every other table it returns a list. *)
Theorem find_nash_equilibrium_raises_on_first_missing_pair :
  forall payoffs,
    match first_missing payoffs with
    | Some k => find_nash_equilibrium payoffs = KeyErr k
    | None => exists l, find_nash_equilibrium payoffs = Ok l
    end.
Proof.
  intros payoffs. unfold first_missing. cbn [find].
  destruct (lookup payoffs ("C", "C")) as [[cc1 cc2]|] eqn:Hcc.
  2:{ unfold find_nash_equilibrium, STRATEGIES, for_each, nash_step.
      now rewrite Hcc. }
  destruct (lookup payoffs ("D", "C")) as [[dc1 dc2]|] eqn:Hdc.
  2:{ unfold find_nash_equilibrium, STRATEGIES, for_each, nash_step.
      cbn [String.eqb Ascii.eqb Bool.eqb]. now rewrite Hcc, Hdc. }
  destruct (lookup payoffs ("C", "D")) as [[cd1 cd2]|] eqn:Hcd.
  2:{ unfold find_nash_equilibrium, STRATEGIES, for_each, nash_step.
      cbn [String.eqb Ascii.eqb Bool.eqb]. now rewrite Hcc, Hdc, Hcd. }
  destruct (lookup payoffs ("D", "D")) as [[dd1 dd2]|] eqn:Hdd.
  2:{ unfold find_nash_equilibrium, STRATEGIES, for_each, nash_step.
      cbn [String.eqb Ascii.eqb Bool.eqb]. rewrite Hcc, Hdc, Hcd, Hdd.
      now destruct (dc1 <? cc1)%Z, (cd2 <? cc2)%Z. }
  eexists.
  exact (find_nash_equilibrium_entries payoffs _ _ _ _ Hcc Hcd Hdc Hdd).
Qed.

Example nash_on_table_without_dd :
  find_nash_equilibrium
    [ (("C", "C"), (2, 2)%Z); (("C", "D"), (10, 0)%Z); (("D", "C"), (0, 10)%Z) ]
  = KeyErr ("D", "D").
Proof. reflexivity. Qed.

End NashErrors.

Section SocialOptimum.
Import Dilemma.
Local Open Scope Z_scope.

Lemma optimal_step_keeps_state (seen : table) state (item : key * payoff) :
  optimal_state seen state ->
  optimal_state (seen ++ [item])%list (optimal_step state item).
Proof.
  destruct item as [k [p1 p2]]. destruct state as [[best|] [|m]]; simpl;
    try contradiction.
  - intros [-> (before & after & -> & Hb & Ha)].
    unfold optimal_step. cbn [snd below].
    destruct (p1 + p2 <? total best) eqn:E.
    + apply Z.ltb_lt in E. split; [reflexivity|].
      exists (before ++ best :: after)%list, []. split; [reflexivity|].
      split; [|constructor].
      apply Forall_app. split.
      * eapply Forall_impl; [|exact Hb]. intros e He. unfold total in *. simpl in *. lia.
      * constructor; [unfold total in *; simpl in *; lia|].
        eapply Forall_impl; [|exact Ha]. intros e He. unfold total in *. simpl in *. lia.
    + apply Z.ltb_ge in E. split; [reflexivity|].
      exists before, (after ++ [(k, (p1, p2))])%list.
      split; [now rewrite <- app_assoc|]. split; [exact Hb|].
      apply Forall_app. split; [exact Ha|].
      constructor; [exact E | constructor].
  - intros ->. split; [reflexivity|].
    exists [], []. repeat split; constructor.
Qed.

Lemma optimal_fold_keeps_state (rest : table) :
  forall seen state,
    optimal_state seen state ->
    optimal_state (seen ++ rest)%list (fold_left optimal_step rest state).
Proof.
  induction rest as [|item rest IH]; intros seen state H.
  - now rewrite app_nil_r.
  - cbn [fold_left].
    replace (seen ++ item :: rest)%list with ((seen ++ [item]) ++ rest)%list
      by now rewrite <- app_assoc.
    apply IH, optimal_step_keeps_state, H.
Qed.

(** [find_socially_optimal] returns [None] on the empty table only.  On
    any other table it returns an entry of the table whose total of years
    is the least, and among the entries of least total the one that comes
    first: every entry before it has a strictly greater total, every entry
    after it a total at least as great. *)
Theorem find_socially_optimal_is_first_least :
  forall payoffs,
    match find_socially_optimal payoffs with
    | None => payoffs = []
    | Some best => first_least payoffs best
    end.
Proof.
  intros payoffs. unfold find_socially_optimal.
  pose proof (optimal_fold_keeps_state payoffs [] (None, Inf) eq_refl) as H.
  cbn [app] in H.
  destruct (fold_left optimal_step payoffs (None, Inf)) as [[best|] [|m]];
    simpl in *; try contradiction; tauto.
Qed.

Example social_optimum_tie_goes_to_first_entry :
  find_socially_optimal
    [ (("C", "C"), (3, 3)); (("C", "D"), (1, 1)); (("D", "C"), (2, 0)) ]
  = Some (("C", "D"), (1, 1)).
Proof. reflexivity. Qed.

End SocialOptimum.
